(** * SingleLinkedList<Type>: a shallow embedding of single-linked-list.h

    The container is a chain of heap nodes hanging off a sentinel node
    [head_] that is a member of the list object, plus a counter [size_].
    Nodes are linked by raw pointers, so the embedding keeps an explicit
    memory: every method is a computation over that memory which either
    finishes with a result, hits undefined behaviour (a null or dangling
    pointer is dereferenced, a non-heap node is deleted) or runs out of the
    fuel that bounds its loops.  [new] always succeeds and returns an
    address that is not in use; [size_t] is taken to be 64 bits wide. *)

From stdpp Require Import gmap list.
From Stdlib Require Import ZArith Lia.

Local Open Scope Z_scope.

(** ** The element type

    What the template asks of [Type]: a default constructor (the sentinel
    holds a default-initialised value), [operator==] (used by [std::equal])
    and [operator<] (used by [std::lexicographical_compare]). *)

Class ElementType (Type_ : Type) := {
  default_value : Type_;
  value_eq : Type_ → Type_ → bool;
  value_lt : Type_ → Type_ → bool;
}.

#[export] Instance Z_ElementType : ElementType Z :=
  {| default_value := 0; value_eq := Z.eqb; value_lt := Z.ltb |}.

(** ** Memory *)

(** Addresses.  A [Node*] is an [option addr]; [nullptr] is [None]. *)
Abbreviation addr := positive (only parsing).
Abbreviation nullptr := (@None positive) (only parsing).

Section Container.

Context {Type_ : Type} `{ElementType Type_}.

(** [struct Node { Type value; Node* next_node = nullptr; }] *)
Record Node := { value : Type_; next_node : option addr }.

(** The memory holds every node, keyed by its address, and the [size_]
    member of every list object.  A list object living at address [this]
    has its sentinel [head_] in [nodes] at [this] (so [&head_] is [this])
    and its [size_] in [sizes] at [this].  Nodes made by [new] are the
    addresses of [nodes] that are not in [sizes]. *)
Record Memory := { nodes : gmap positive Node; sizes : gmap positive Z }.

Definition empty_memory : Memory := {| nodes := ∅; sizes := ∅ |}.

Inductive outcome (A : Type) :=
| Done (a : A) (m : Memory)
| Undefined
| OutOfFuel.
Arguments Done {A} a m.
Arguments Undefined {A}.
Arguments OutOfFuel {A}.

Definition M (A : Type) : Type := Memory → outcome A.

Definition ret {A} (a : A) : M A := λ m, Done a m.

Definition bind {A B} (c : M A) (k : A → M B) : M B :=
  λ m, match c m with
       | Done a m' => k a m'
       | Undefined => Undefined
       | OutOfFuel => OutOfFuel
       end.

Definition out_of_fuel {A} : M A := λ _, OutOfFuel.

Notation "'do' x <- c1 ; c2" := (bind c1 (λ x, c2))
  (at level 10, x name, c1 at level 100, c2 at level 200,
   format "'[v' 'do'  x  <-  c1 ; '/' c2 ']'").
Notation "'do_' c1 ; c2" := (bind c1 (λ _, c2))
  (at level 10, c1 at level 100, c2 at level 200,
   format "'[v' 'do_'  c1 ; '/' c2 ']'").

(** size_t is 64 bits wide; [++size_] and [size_--] wrap around. *)
Definition size_t_modulus : Z := 2 ^ 64.
Definition wrap (z : Z) : Z := z mod size_t_modulus.

(** *** Primitive accesses *)

(** [*p] for a [Node* p]. *)
Definition load (p : option addr) : M Node :=
  λ m, match p with
       | None => Undefined
       | Some a =>
         match nodes m !! a with
         | Some n => Done n m
         | None => Undefined
         end
       end.

(** [p->next_node] *)
Definition get_next (p : option addr) : M (option addr) :=
  do n <- load p; ret (next_node n).

(** [p->value] *)
Definition get_value (p : option addr) : M Type_ :=
  do n <- load p; ret (value n).

(** [p->next_node = q] *)
Definition set_next (p q : option addr) : M unit :=
  do n <- load p;
  λ m, match p with
       | Some a =>
         Done tt {| nodes := <[a := {| value := value n; next_node := q |}]> (nodes m);
                    sizes := sizes m |}
       | None => Undefined
       end.

(** An address no object occupies. *)
Definition fresh_addr (m : Memory) : positive :=
  fresh (dom (nodes m) ∪ dom (sizes m)).

(** [new Node(val, next)] *)
Definition new_Node (val : Type_) (next : option addr) : M (option addr) :=
  λ m, let a := fresh_addr m in
       Done (Some a)
            {| nodes := <[a := {| value := val; next_node := next |}]> (nodes m);
               sizes := sizes m |}.

(** [delete p].  Deleting a null pointer does nothing; deleting anything
    but a live node made by [new] is undefined. *)
Definition delete_Node (p : option addr) : M unit :=
  λ m, match p with
       | None => Done tt m
       | Some a =>
         match nodes m !! a, sizes m !! a with
         | Some _, None => Done tt {| nodes := delete a (nodes m); sizes := sizes m |}
         | _, _ => Undefined
         end
       end.

(** [this->size_] *)
Definition get_size (this : addr) : M Z :=
  λ m, match sizes m !! this with
       | Some s => Done s m
       | None => Undefined
       end.

(** [this->size_ = s] *)
Definition set_size (this : addr) (s : Z) : M unit :=
  do _s <- get_size this;
  λ m, Done tt {| nodes := nodes m; sizes := <[this := s]> (sizes m) |}.

(** ** BasicIterator *)

(** Both [Iterator] and [ConstIterator] hold one [Node* node_]. *)
Record BasicIterator := { node_ : option addr }.

Definition Iterator (node : option addr) : BasicIterator := {| node_ := node |}.

(** [operator==] and [operator!=] of iterators compare the node pointers. *)
Definition iterator_eq (lhs rhs : BasicIterator) : bool :=
  bool_decide (node_ lhs = node_ rhs).

Definition iterator_ne (lhs rhs : BasicIterator) : bool :=
  negb (iterator_eq lhs rhs).

(** Prefix [operator++]: yields the iterator after the step. *)
Definition pre_increment (it : BasicIterator) : M BasicIterator :=
  match node_ it with
  | Some _ => do nx <- get_next (node_ it); ret (Iterator nx)
  | None => ret it
  end.


(** [operator*] *)
Definition dereference (it : BasicIterator) : M Type_ :=
  get_value (node_ it).

(** ** SingleLinkedList *)

Definition begin (this : addr) : M BasicIterator :=
  do nx <- get_next (Some this); ret (Iterator nx).

Definition end_ (this : addr) : M BasicIterator :=
  ret (Iterator None).

Definition before_begin (this : addr) : M BasicIterator :=
  ret (Iterator (Some this)).

Definition increment_size (this : addr) : M unit :=
  do s <- get_size this; set_size this (wrap (s + 1)).

Definition decrement_size (this : addr) : M unit :=
  do s <- get_size this; set_size this (wrap (s - 1)).

Definition InsertAfter (this : addr) (pos : BasicIterator) (val : Type_)
  : M BasicIterator :=
  do after <- get_next (node_ pos);
  do new_node <- new_Node val after;
  do_ set_next (node_ pos) new_node;
  do_ increment_size this;
  ret (Iterator new_node).

Definition EraseAfter (this : addr) (pos : BasicIterator) : M BasicIterator :=
  do node_for_del <- get_next (node_ pos);
  do after <- get_next node_for_del;
  do_ set_next (node_ pos) after;
  do_ delete_Node node_for_del;
  do nx <- get_next (node_ pos);
  ret (Iterator nx).

Definition GetSize (this : addr) : M Z := get_size this.

Definition IsEmpty (this : addr) : M bool :=
  do s <- get_size this; ret (if decide (s = 0) then true else false).

Definition PushFront (this : addr) (val : Type_) : M unit :=
  do first <- get_next (Some this);
  do new_node <- new_Node val first;
  do_ set_next (Some this) new_node;
  increment_size this.

Definition PopFront (this : addr) : M unit :=
  do first <- get_next (Some this);
  match first with
  | Some _ =>
    let node_for_del := first in
    do node_after_del <- get_next first;
    do_ match node_after_del with
        | Some _ => set_next (Some this) node_after_del
        | None => set_next (Some this) None
        end;
    delete_Node node_for_del
  | None => ret tt
  end.

(** The [while (first_node != nullptr)] loop of [Clear]. *)
Fixpoint Clear_loop (fuel : nat) (this : addr) (first_node : option addr) : M unit :=
  match first_node with
  | None => ret tt
  | Some _ =>
    match fuel with
    | O => out_of_fuel
    | S fuel' =>
      let current_node := first_node in
      do first_node' <- get_next first_node;
      do_ delete_Node current_node;
      do_ decrement_size this;
      Clear_loop fuel' this first_node'
    end
  end.

Definition Clear (fuel : nat) (this : addr) : M unit :=
  do first <- get_next (Some this);
  do_ match first with
      | Some _ => Clear_loop fuel this first
      | None => ret tt
      end;
  do_ set_next (Some this) None;
  set_size this 0.

(** *** Construction, copy, assignment, swap, destruction *)

(** Storage for a new list object, with the members holding what their
    default member initialisers give: [head_] is a default [Node] (its
    [next_node] is [nullptr]) and [size_] is 0.  The sentinel's [value] is
    written as [default_value] here; for a trivial [Type] the initializer-list
    and copy constructors leave it indeterminate.  No method of the
    container reads it, and the statements below never depend on it. *)
Definition allocate_list : M addr :=
  λ m, let this := fresh_addr m in
       Done this
            {| nodes := <[this := {| value := default_value; next_node := None |}]> (nodes m);
               sizes := <[this := 0]> (sizes m) |}.

(** [SingleLinkedList() : head_(), size_() {}] *)
Definition SingleLinkedList_default : M addr := allocate_list.

(** The [for] loop of the initializer-list constructor: [values] is walked
    from [rbegin] to [rend]. *)
Fixpoint PushFront_each (this : addr) (reversed : list Type_) : M unit :=
  match reversed with
  | [] => ret tt
  | val :: rest => do_ PushFront this val; PushFront_each this rest
  end.

(** [SingleLinkedList(std::initializer_list<Type> values)] *)
Definition SingleLinkedList_init (fuel : nat) (values : list Type_) : M addr :=
  do this <- allocate_list;
  do_ Clear fuel this;
  do_ PushFront_each this (rev values);
  ret this.

(** [std::swap(other.size_, size_); std::swap(other.head_.next_node, head_.next_node);] *)
Definition swap (this other : addr) : M unit :=
  do other_size <- get_size other;
  do this_size <- get_size this;
  do_ set_size other this_size;
  do_ set_size this other_size;
  do other_next <- get_next (Some other);
  do this_next <- get_next (Some this);
  do_ set_next (Some other) this_next;
  set_next (Some this) other_next.

(** [~SingleLinkedList()] followed by the release of the object's storage. *)
Definition destroy (fuel : nat) (this : addr) : M unit :=
  do_ Clear fuel this;
  λ m, Done tt {| nodes := delete this (nodes m); sizes := delete this (sizes m) |}.

(** The [while (other_next_node != nullptr)] loop of the copy constructor. *)
Fixpoint copy_loop (fuel : nat) (prev_node other_next_node : option addr) : M unit :=
  match other_next_node with
  | None => ret tt
  | Some _ =>
    match fuel with
    | O => out_of_fuel
    | S fuel' =>
      do val <- get_value other_next_node;
      do new_node <- new_Node val None;
      do_ set_next prev_node new_node;
      do other_next_node' <- get_next other_next_node;
      copy_loop fuel' new_node other_next_node'
    end
  end.

(** [SingleLinkedList(const SingleLinkedList& other)] *)
Definition SingleLinkedList_copy (fuel : nat) (other : addr) : M addr :=
  do this <- allocate_list;
  do tmp <- SingleLinkedList_default;
  do other_next_node <- get_next (Some other);
  do_ match other_next_node with
      | Some _ =>
        do val <- get_value other_next_node;
        do first_node <- new_Node val None;
        do_ set_next (Some tmp) first_node;
        do other_next_node' <- get_next other_next_node;
        do_ copy_loop fuel first_node other_next_node';
        do other_size <- get_size other;
        do_ set_size tmp other_size;
        swap this tmp
      | None => swap this tmp
      end;
  do_ destroy fuel tmp;
  ret this.

(** [operator=(const SingleLinkedList& rhs)] *)
Definition assign (fuel : nat) (this rhs : addr) : M unit :=
  if decide (this = rhs) then ret tt
  else
    do tmp <- SingleLinkedList_copy fuel rhs;
    do_ swap this tmp;
    destroy fuel tmp.

(** *** Traversal *)

(** The values met by [for (auto it = first; it != last; ++it)], each read
    through [operator*]. *)
Fixpoint iterate_range (fuel : nat) (first last : BasicIterator) : M (list Type_) :=
  if iterator_ne first last then
    match fuel with
    | O => out_of_fuel
    | S fuel' =>
      do val <- dereference first;
      do first' <- pre_increment first;
      do rest <- iterate_range fuel' first' last;
      ret (val :: rest)
    end
  else ret [].

(** The values a range-[for] over the list visits, in order. *)
Definition iterate (fuel : nat) (this : addr) : M (list Type_) :=
  do first <- begin this;
  do last <- end_ this;
  iterate_range fuel first last.

(** The number of nodes met when following [next_node] from [p] to
    [nullptr]. *)
Fixpoint count_nodes (fuel : nat) (p : option addr) : M nat :=
  match p with
  | None => ret O
  | Some _ =>
    match fuel with
    | O => out_of_fuel
    | S fuel' =>
      do nx <- get_next p;
      do n <- count_nodes fuel' nx;
      ret (S n)
    end
  end.

(** The number of real nodes reachable from the sentinel of [this]. *)
Definition reachable_nodes (fuel : nat) (this : addr) : M nat :=
  do first <- get_next (Some this); count_nodes fuel first.

(** *** Comparison operators *)

(** [std::equal(first1, last1, first2)], the three-iterator overload the
    header calls.  While [first1 != last1]: the two iterators are
    dereferenced and the values compared with [operator==]; unequal values
    end the loop with [false]; otherwise both iterators are incremented.
    When [first1] reaches [last1] the answer is [true].  The second range
    has no end of its own. *)
Fixpoint std_equal (fuel : nat) (first1 last1 first2 : BasicIterator) : M bool :=
  if iterator_ne first1 last1 then
    match fuel with
    | O => out_of_fuel
    | S fuel' =>
      do a <- dereference first1;
      do b <- dereference first2;
      if negb (value_eq a b) then ret false
      else
        do first1' <- pre_increment first1;
        do first2' <- pre_increment first2;
        std_equal fuel' first1' last1 first2'
    end
  else ret true.

(** [std::lexicographical_compare(first1, last1, first2, last2)].  While
    [first1 != last1 && first2 != last2]: with [a] and [b] the values under
    [first1] and [first2], [a < b] ends the loop with [true], [b < a] ends it
    with [false], otherwise both iterators are incremented.  After the loop
    the answer is [first1 == last1 && first2 != last2]. *)
Fixpoint std_lexicographical_compare (fuel : nat)
    (first1 last1 first2 last2 : BasicIterator) : M bool :=
  if iterator_ne first1 last1 && iterator_ne first2 last2 then
    match fuel with
    | O => out_of_fuel
    | S fuel' =>
      do a <- dereference first1;
      do b <- dereference first2;
      if value_lt a b then ret true
      else if value_lt b a then ret false
      else
        do first1' <- pre_increment first1;
        do first2' <- pre_increment first2;
        std_lexicographical_compare fuel' first1' last1 first2' last2
    end
  else ret (iterator_eq first1 last1 && iterator_ne first2 last2).

Definition operator_eq (fuel : nat) (lhs rhs : addr) : M bool :=
  do first1 <- begin lhs;
  do last1 <- end_ lhs;
  do first2 <- begin rhs;
  std_equal fuel first1 last1 first2.

Definition operator_ne (fuel : nat) (lhs rhs : addr) : M bool :=
  do b <- operator_eq fuel lhs rhs; ret (negb b).

Definition operator_lt (fuel : nat) (lhs rhs : addr) : M bool :=
  do first1 <- begin lhs;
  do last1 <- end_ lhs;
  do first2 <- begin rhs;
  do last2 <- end_ rhs;
  std_lexicographical_compare fuel first1 last1 first2 last2.

Definition operator_le (fuel : nat) (lhs rhs : addr) : M bool :=
  do b <- operator_lt fuel lhs rhs; ret (negb b).

Definition operator_gt (fuel : nat) (lhs rhs : addr) : M bool :=
  do b <- operator_lt fuel lhs rhs; ret (negb b).

Definition operator_ge (fuel : nat) (lhs rhs : addr) : M bool :=
  do b <- operator_lt fuel lhs rhs; ret (negb b).

(** *** Observing an outcome *)

Definition result {A} (o : outcome A) : option A :=
  match o with
  | Done a _ => Some a
  | _ => None
  end.

End Container.

Arguments Done {Type_ A} a m.
Arguments Undefined {Type_ A}.
Arguments OutOfFuel {Type_ A}.
Arguments Node : clear implicits.
Arguments Memory : clear implicits.
Arguments outcome : clear implicits.
Arguments M : clear implicits.

Notation "'do' x <- c1 ; c2" := (bind c1 (λ x, c2))
  (at level 10, x name, c1 at level 100, c2 at level 200,
   format "'[v' 'do'  x  <-  c1 ; '/' c2 ']'").
Notation "'do_' c1 ; c2" := (bind c1 (λ _, c2))
  (at level 10, c1 at level 100, c2 at level 200,
   format "'[v' 'do_'  c1 ; '/' c2 ']'").

(** ** What a well-formed list looks like in memory *)

Section Representation.

Context {Type_ : Type} `{ElementType Type_}.

(** [segment m p q cells]: following [next_node] from [p] passes through
    the heap nodes [cells] (address and value, in order) and then reaches
    [q]. *)
Fixpoint segment (m : Memory Type_) (p q : option addr)
    (cells : list (positive * Type_)) : Prop :=
  match cells with
  | [] => p = q
  | (a, v) :: rest =>
    p = Some a ∧ sizes m !! a = None ∧
    ∃ nx, nodes m !! a = Some {| value := v; next_node := nx |} ∧
          segment m nx q rest
  end.

(** A chain is a segment that ends in [nullptr]. *)
Definition chain (m : Memory Type_) (p : option addr)
    (cells : list (positive * Type_)) : Prop :=
  segment m p None cells.

(** [is_list m this cells sz]: at [this] lives a list object whose sentinel
    heads the chain [cells] and whose [size_] member holds [sz].  Nothing
    ties [sz] to [cells]. *)
Definition is_list (m : Memory Type_) (this : addr)
    (cells : list (positive * Type_)) (sz : Z) : Prop :=
  ∃ hv nx, nodes m !! this = Some {| value := hv; next_node := nx |} ∧
           sizes m !! this = Some sz ∧
           chain m nx cells.

(** The sequence of values of a chain. *)
Definition values_of (cells : list (positive * Type_)) : list Type_ := cells.*2.

(** *** The comparisons, read as functions on value sequences *)

(** What the loop of [std::equal] computes on two value sequences; [None]
    when the second one ends first and is read past its end. *)
Fixpoint equal_values (xs ys : list Type_) : option bool :=
  match xs, ys with
  | [], _ => Some true
  | _ :: _, [] => None
  | x :: xs', y :: ys' =>
    if negb (value_eq x y) then Some false else equal_values xs' ys'
  end.

(** What the loop of [std::lexicographical_compare] computes. *)
Fixpoint less_values (xs ys : list Type_) : bool :=
  match xs, ys with
  | [], [] => false
  | [], _ :: _ => true
  | _ :: _, [] => false
  | x :: xs', y :: ys' =>
    if value_lt x y then true
    else if value_lt y x then false
    else less_values xs' ys'
  end.

(** Lexicographic order in the words of the specification: the sequences
    agree (neither element is less than the other) on the positions before
    [n], and at [n] either the left sequence has ended and the right one has
    not (a proper prefix), or the left element is less than the right one. *)
Definition lexicographically_less (xs ys : list Type_) : Prop :=
  ∃ n : nat,
    (∀ i : nat, (i < n)%nat →
       ∃ x y, xs !! i = Some x ∧ ys !! i = Some y ∧
              value_lt x y = false ∧ value_lt y x = false) ∧
    ((xs !! n = None ∧ is_Some (ys !! n)) ∨
     (∃ x y, xs !! n = Some x ∧ ys !! n = Some y ∧ value_lt x y = true)).

(** Equality in the words of the specification: same length and equal
    values at every position. *)
Definition same_length_equal_values (xs ys : list Type_) : Prop :=
  length xs = length ys ∧
  ∀ (i : nat) x y, xs !! i = Some x → ys !! i = Some y → value_eq x y = true.

(** [n] prefix increments in a row. *)
Fixpoint advance (n : nat) (it : BasicIterator) : M Type_ BasicIterator :=
  match n with
  | O => ret it
  | S n' => do it' <- pre_increment it; advance n' it'
  end.

End Representation.

(** ** Sequences of calls at the front *)

Section FrontOperations.

Context {Type_ : Type} `{ElementType Type_}.

(** One call at the front of a list: [PushFront(x)] or [PopFront()]. *)
Inductive front_op :=
| Push (x : Type_)
| Pop.

(** The calls of [ops], made one after the other on the list [this]. *)
Fixpoint run_front_ops (this : addr) (ops : list front_op) : M Type_ unit :=
  match ops with
  | [] => ret tt
  | Push x :: rest => do_ PushFront this x; run_front_ops this rest
  | Pop :: rest => do_ PopFront this; run_front_ops this rest
  end.

(** The same calls on a stack of values: pushing conses, popping drops the
    top if there is one. *)
Fixpoint stack_after (ops : list front_op) (values : list Type_) : list Type_ :=
  match ops with
  | [] => values
  | Push x :: rest => stack_after rest (x :: values)
  | Pop :: rest => stack_after rest (tail values)
  end.

(** How many of the calls are [PushFront]. *)
Fixpoint pushes (ops : list front_op) : nat :=
  match ops with
  | [] => O
  | Push _ :: rest => S (pushes rest)
  | Pop :: rest => pushes rest
  end.

(** Two value sequences agree wherever both have an element: the values at
    each common position compare equal with [operator==]. *)
Definition values_agree (xs ys : list Type_) : Prop :=
  ∀ (i : nat) x y, xs !! i = Some x → ys !! i = Some y → value_eq x y = true.


End FrontOperations.

Arguments front_op : clear implicits.

(** ** Small client programs over [SingleLinkedList<int>]

    Each one is run from the empty memory; they are the concrete inputs the
    statements below are evaluated at. *)

(** What is left in memory once a program has run. *)
Definition memory_after {A} (program : M Z A) : Memory Z :=
  match program empty_memory with
  | Done _ m => m
  | _ => empty_memory
  end.

(** An outcome with the boolean result negated. *)
Definition negated {Type_ : Type} (o : outcome Type_ bool) : outcome Type_ bool :=
  match o with
  | Done b m => Done (negb b) m
  | Undefined => Undefined
  | OutOfFuel => OutOfFuel
  end.

(** [SingleLinkedList<int> l{1, 2}; l.PopFront();], observed through
    [GetSize] before and after, the walk from the sentinel and a range-for. *)
Definition pop_front_program : M Z (Z * Z * nat * list Z) :=
  do l <- SingleLinkedList_init 0 [1; 2];
  do size_before <- GetSize l;
  do_ PopFront l;
  do size_after <- GetSize l;
  do live <- reachable_nodes 2 l;
  do contents <- iterate 2 l;
  ret (size_before, size_after, live, contents).

(** [SingleLinkedList<int> l{1, 2, 3}; auto it = l.EraseAfter(l.begin());] *)
Definition erase_after_program : M Z (Z * Z * nat * list Z * Z) :=
  do l <- SingleLinkedList_init 0 [1; 2; 3];
  do size_before <- GetSize l;
  do pos <- begin l;
  do it <- EraseAfter l pos;
  do size_after <- GetSize l;
  do live <- reachable_nodes 3 l;
  do contents <- iterate 3 l;
  do after <- dereference it;
  ret (size_before, size_after, live, contents, after).

(** [SingleLinkedList<int> a{xs}, b{ys}; return a == b;] *)
Definition equality_program (xs ys : list Z) : M Z bool :=
  do a <- SingleLinkedList_init 0 xs;
  do b <- SingleLinkedList_init 0 ys;
  operator_eq (length xs) a b.

(** [SingleLinkedList<int> l; l.PushFront(1); l.PopFront();], then the
    three views of its size. *)
Definition push_pop_program : M Z (Z * nat * bool) :=
  do l <- SingleLinkedList_default;
  do_ PushFront l 1;
  do_ PopFront l;
  do size <- GetSize l;
  do live <- reachable_nodes 1 l;
  do empty <- IsEmpty l;
  ret (size, live, empty).

(** [SingleLinkedList<int> a{xs}, b{ys}; return a < b;] *)
Definition less_program (xs ys : list Z) : M Z bool :=
  do a <- SingleLinkedList_init 0 xs;
  do b <- SingleLinkedList_init 0 ys;
  operator_lt (length xs) a b.

(** [SingleLinkedList<int> a{xs}, b{ys}; return {a > b, b < a};] *)
Definition greater_program (xs ys : list Z) : M Z (bool * bool) :=
  do a <- SingleLinkedList_init 0 xs;
  do b <- SingleLinkedList_init 0 ys;
  do greater <- operator_gt (length xs) a b;
  do swapped_less <- operator_lt (length ys) b a;
  ret (greater, swapped_less).

(** [SingleLinkedList<int> a{1, 2, 3}; SingleLinkedList<int> b(a);
    b.PushFront(0); a.Clear();], then both lists are read. *)
Definition copy_program : M Z (list Z * Z * list Z * Z) :=
  do a <- SingleLinkedList_init 0 [1; 2; 3];
  do b <- SingleLinkedList_copy 3 a;
  do_ PushFront b 0;
  do_ Clear 3 a;
  do contents_a <- iterate 4 a;
  do size_a <- GetSize a;
  do contents_b <- iterate 4 b;
  do size_b <- GetSize b;
  ret (contents_a, size_a, contents_b, size_b).

(** [SingleLinkedList<int> a{1, 2}, b{7}, c{8, 9}; b = a; a = a; a.swap(c);],
    then the three lists are read. *)
Definition assign_swap_program : M Z (list Z * Z * list Z * Z * list Z * Z) :=
  do a <- SingleLinkedList_init 0 [1; 2];
  do b <- SingleLinkedList_init 0 [7];
  do c <- SingleLinkedList_init 0 [8; 9];
  do_ assign 3 b a;
  do_ assign 3 a a;
  do_ swap a c;
  do contents_a <- iterate 4 a;
  do size_a <- GetSize a;
  do contents_b <- iterate 4 b;
  do size_b <- GetSize b;
  do contents_c <- iterate 4 c;
  do size_c <- GetSize c;
  ret (contents_a, size_a, contents_b, size_b, contents_c, size_c).


(** The nodes (address and value) of the two lists of [two_lists_memory]. *)
Definition cells_1_2 : list (positive * Z) :=
  [(3%positive, 1); (2%positive, 2)].
Definition cells_1_2_3 : list (positive * Z) :=
  [(7%positive, 1); (6%positive, 2); (5%positive, 3)].

(** The memory holding the lists [{1, 2}] (object at address 1, nodes at 3
    and 2) and [{1, 2, 3}] (object at 4, nodes at 7, 6 and 5). *)
Definition two_lists_memory : Memory Z :=
  memory_after (do _a <- SingleLinkedList_init 0 [1; 2];
                SingleLinkedList_init 0 [1; 2; 3]).

(** Checks [is_list] on a concrete memory by evaluation, given the
    sentinel's value and [next_node]. *)
Ltac check_is_list hv first :=
  exists hv, first; vm_compute;
  repeat first [reflexivity | split | eexists].

(** Runs the primitive accesses of a straight-line method on a memory whose
    lookups are known. *)
Ltac run_accesses :=
  unfold bind, get_size, set_size, get_next, get_value, set_next, load, bind, get_size;
  simpl;
  repeat first
    [ rewrite lookup_insert_eq
    | rewrite lookup_insert_ne by done
    | match goal with
      | Hlookup : ?map !! ?k = _ |- context [?map !! ?k] => rewrite Hlookup
      end
    | progress simpl ].

(** ** Basic facts about the monad and the primitive accesses *)

Section Primitives.

Context {Type_ : Type} `{ElementType Type_}.

Implicit Types (m : Memory Type_) (p q : option addr) (a this : positive).

Lemma bind_Done {A B} (c : M Type_ A) (k : A → M Type_ B) m (x : A) m' :
  c m = Done x m' → bind c k m = k x m'.
Proof. unfold bind. by intros ->. Qed.

Lemma bind_Undefined {A B} (c : M Type_ A) (k : A → M Type_ B) m :
  c m = Undefined → bind c k m = Undefined.
Proof. unfold bind. by intros ->. Qed.

Lemma bind_ret {A B} (x : A) (k : A → M Type_ B) m :
  bind (ret x) k m = k x m.
Proof. reflexivity. Qed.

Lemma load_Some m a n :
  nodes m !! a = Some n → load (Some a) m = Done n m.
Proof. unfold load. by intros ->. Qed.

Lemma get_next_Some m a n :
  nodes m !! a = Some n → get_next (Some a) m = Done (next_node n) m.
Proof. intros Hn. unfold get_next. by rewrite (bind_Done _ _ _ _ _ (load_Some _ _ _ Hn)). Qed.

Lemma get_value_Some m a n :
  nodes m !! a = Some n → get_value (Some a) m = Done (value n) m.
Proof. intros Hn. unfold get_value. by rewrite (bind_Done _ _ _ _ _ (load_Some _ _ _ Hn)). Qed.

Lemma get_next_dangling m a :
  nodes m !! a = None → get_next (Some a) m = Undefined.
Proof. intros Hn. unfold get_next, bind, load. by rewrite Hn. Qed.

Lemma set_next_Some m a n q :
  nodes m !! a = Some n →
  set_next (Some a) q m =
  Done tt {| nodes := <[a := {| value := value n; next_node := q |}]> (nodes m);
             sizes := sizes m |}.
Proof. intros Hn. unfold set_next. by rewrite (bind_Done _ _ _ _ _ (load_Some _ _ _ Hn)). Qed.

Lemma get_size_Some m this s :
  sizes m !! this = Some s → get_size this m = Done s m.
Proof. unfold get_size. by intros ->. Qed.

Lemma set_size_Some m this s s' :
  sizes m !! this = Some s →
  set_size this s' m = Done tt {| nodes := nodes m; sizes := <[this := s']> (sizes m) |}.
Proof. intros Hs. unfold set_size. by rewrite (bind_Done _ _ _ _ _ (get_size_Some _ _ _ Hs)). Qed.

Lemma delete_Node_Some m a n :
  nodes m !! a = Some n → sizes m !! a = None →
  delete_Node (Some a) m = Done tt {| nodes := delete a (nodes m); sizes := sizes m |}.
Proof. unfold delete_Node. by intros -> ->. Qed.

Lemma fresh_addr_nodes m : nodes m !! fresh_addr m = None.
Proof.
  apply not_elem_of_dom. intros Hin.
  apply (is_fresh (dom (nodes m) ∪ dom (sizes m))). unfold fresh_addr in Hin. set_solver.
Qed.

Lemma fresh_addr_sizes m : sizes m !! fresh_addr m = None.
Proof.
  apply not_elem_of_dom. intros Hin.
  apply (is_fresh (dom (nodes m) ∪ dom (sizes m))). unfold fresh_addr in Hin. set_solver.
Qed.

End Primitives.

(** ** Chains *)

Section Chains.

Context {Type_ : Type} `{ElementType Type_}.

Implicit Types (m : Memory Type_) (p q : option addr) (a this : positive)
  (cells : list (positive * Type_)).

(** A segment only depends on the memory at its own nodes. *)
Lemma segment_frame m m' p q cells :
  (∀ a, a ∈ cells.*1 →
        nodes m' !! a = nodes m !! a ∧ sizes m' !! a = sizes m !! a) →
  segment m p q cells → segment m' p q cells.
Proof.
  revert p. induction cells as [|[a v] rest IH]; intros p Hsame; simpl; [done|].
  intros (-> & Hsz & nx & Hnode & Hrest).
  destruct (Hsame a) as [Hn Hs]; [apply elem_of_cons; by left|].
  split; [done|]. split; [congruence|].
  exists nx. split; [congruence|].
  apply IH; [|done]. intros b Hb. apply Hsame. apply elem_of_cons. by right.
Qed.

Lemma segment_app m p q cells1 cells2 :
  segment m p q (cells1 ++ cells2) ↔
  ∃ r, segment m p r cells1 ∧ segment m r q cells2.
Proof.
  revert p. induction cells1 as [|[a v] rest IH]; intros p; simpl.
  - split; [eauto|]. by intros (r & -> & Hr).
  - split.
    + intros (-> & Hsz & nx & Hnode & Hrest).
      apply IH in Hrest as (r & H1 & H2). exists r. eauto 10.
    + intros (r & (-> & Hsz & nx & Hnode & Hrest) & H2).
      split; [done|]. split; [done|]. exists nx. split; [done|].
      apply IH. eauto.
Qed.

(** The memory is a function of the address, so a pointer heads at most one
    chain. *)
Lemma chain_unique m p cells1 cells2 :
  chain m p cells1 → chain m p cells2 → cells1 = cells2.
Proof.
  unfold chain. revert p cells2.
  induction cells1 as [|[a v] rest IH]; intros p [|[b w] rest2]; simpl; try done.
  - by intros -> (? & _).
  - by intros (-> & _) ?.
  - intros (-> & _ & nx & Hn & Hrest) (Heq & _ & nx2 & Hn2 & Hrest2).
    simplify_eq. f_equal. eauto.
Qed.

(** A chain reaches [nullptr], so it visits no node twice. *)
Lemma chain_head_not_in_tail m a v rest :
  chain m (Some a) ((a, v) :: rest) → a ∉ rest.*1.
Proof.
  intros Hchain Hin.
  apply list_elem_of_fmap in Hin as ([b w] & Hab & Hin). simpl in Hab. subst b.
  apply list_elem_of_split in Hin as (c1 & c2 & ->).
  assert (Hsuffix : chain m (Some a) ((a, w) :: c2)).
  { unfold chain in Hchain.
    change ((a, v) :: c1 ++ (a, w) :: c2) with (((a, v) :: c1) ++ (a, w) :: c2) in Hchain.
    apply segment_app in Hchain as (r & _ & Htail).
    destruct Htail as (-> & Htail). by split. }
  pose proof (chain_unique _ _ _ _ Hchain Hsuffix) as Heq.
  apply (f_equal length) in Heq. simpl in Heq. rewrite length_app in Heq. simpl in Heq. lia.
Qed.

Lemma chain_NoDup m p cells : chain m p cells → NoDup cells.*1.
Proof.
  revert p. induction cells as [|[a v] rest IH]; intros p Hchain; simpl.
  - constructor.
  - pose proof Hchain as (-> & _ & nx & _ & Hrest).
    constructor; [by eapply chain_head_not_in_tail | by eapply IH].
Qed.

(** The nodes of a chain are heap nodes: none of them is a list object. *)
Lemma segment_cells_on_heap m p q cells a :
  segment m p q cells → a ∈ cells.*1 →
  sizes m !! a = None ∧ is_Some (nodes m !! a).
Proof.
  revert p. induction cells as [|[b v] rest IH]; intros p; simpl; [by intros _ ?%elem_of_nil|].
  intros (-> & Hsz & nx & Hn & Hrest) Hin.
  apply elem_of_cons in Hin as [->|Hin]; [eauto|]. eauto.
Qed.

Lemma is_list_sentinel_not_cell m this cells sz :
  is_list m this cells sz → this ∉ cells.*1.
Proof.
  intros (hv & nx & _ & Hsz & Hchain) Hin.
  destruct (segment_cells_on_heap _ _ _ _ _ Hchain Hin) as [Hnone _]. congruence.
Qed.

Lemma chain_head_pointer m p cells :
  chain m p cells → p = fst <$> head cells.
Proof. destruct cells as [|[a v] rest]; [done|]. by intros (-> & _). Qed.

End Chains.

(** ** Reading a list: iterators, traversal, comparisons *)

Section Reading.

Context {Type_ : Type} `{ElementType Type_}.

Implicit Types (m : Memory Type_) (p q : option addr) (a this : positive)
  (cells : list (positive * Type_)).

Lemma iterator_ne_end_Some a :
  iterator_ne (Iterator (Some a)) (Iterator None) = true.
Proof. reflexivity. Qed.

Lemma iterator_ne_end_None :
  iterator_ne (Iterator None) (Iterator None) = false.
Proof. reflexivity. Qed.

Lemma dereference_cell m a v rest :
  chain m (Some a) ((a, v) :: rest) →
  dereference (Iterator (Some a)) m = Done v m.
Proof.
  intros (_ & _ & nx & Hn & _). unfold dereference. simpl.
  by rewrite (get_value_Some _ _ _ Hn).
Qed.

Lemma pre_increment_cell m a v rest :
  chain m (Some a) ((a, v) :: rest) →
  ∃ nx, pre_increment (Iterator (Some a)) m = Done (Iterator nx) m ∧ chain m nx rest.
Proof.
  intros (_ & _ & nx & Hn & Hrest). exists nx. split; [|done].
  unfold pre_increment. simpl.
  by rewrite (bind_Done _ _ _ _ _ (get_next_Some _ _ _ Hn)).
Qed.

Lemma chain_cons_inv m p c cells :
  chain m p (c :: cells) → p = Some c.1 ∧ chain m (Some c.1) ((c.1, c.2) :: cells).
Proof. destruct c as [a v]. intros Hc. pose proof Hc as (-> & _). done. Qed.

Lemma begin_is_list m this cells sz :
  is_list m this cells sz →
  ∃ p, begin this m = Done (Iterator p) m ∧ chain m p cells.
Proof.
  intros (hv & nx & Hn & _ & Hchain). exists nx. split; [|done].
  unfold begin. by rewrite (bind_Done _ _ _ _ _ (get_next_Some _ _ _ Hn)).
Qed.

Lemma iterate_range_chain m cells : ∀ p fuel,
  chain m p cells → (length cells ≤ fuel)%nat →
  iterate_range fuel (Iterator p) (Iterator None) m = Done (values_of cells) m.
Proof.
  induction cells as [|[a v] rest IH]; intros p fuel Hchain Hfuel.
  - unfold chain in Hchain. simpl in Hchain. subst p. by destruct fuel.
  - pose proof Hchain as (-> & _).
    destruct fuel as [|fuel]; [simpl in Hfuel; lia|]. simpl.
    rewrite (bind_Done _ _ _ _ _ (dereference_cell _ _ _ _ Hchain)).
    destruct (pre_increment_cell _ _ _ _ Hchain) as (nx & Hinc & Hrest).
    rewrite (bind_Done _ _ _ _ _ Hinc).
    rewrite (bind_Done _ _ _ _ _ (IH nx fuel Hrest ltac:(simpl in Hfuel; lia))).
    reflexivity.
Qed.

Lemma iterate_is_list m this cells sz fuel :
  is_list m this cells sz → (length cells ≤ fuel)%nat →
  iterate fuel this m = Done (values_of cells) m.
Proof.
  intros Hlist Hfuel. destruct (begin_is_list _ _ _ _ Hlist) as (p & Hbegin & Hchain).
  unfold iterate. rewrite (bind_Done _ _ _ _ _ Hbegin). unfold end_. rewrite bind_ret.
  by apply iterate_range_chain.
Qed.

Lemma count_nodes_chain m cells : ∀ p fuel,
  chain m p cells → (length cells ≤ fuel)%nat →
  count_nodes fuel p m = Done (length cells) m.
Proof.
  induction cells as [|[a v] rest IH]; intros p fuel Hchain Hfuel.
  - unfold chain in Hchain. simpl in Hchain. subst p. by destruct fuel.
  - pose proof Hchain as (-> & _ & nx & Hn & Hrest).
    destruct fuel as [|fuel]; [simpl in Hfuel; lia|]. simpl.
    rewrite (bind_Done _ _ _ _ _ (get_next_Some _ _ _ Hn)). simpl.
    by rewrite (bind_Done _ _ _ _ _ (IH nx fuel Hrest ltac:(simpl in Hfuel; lia))).
Qed.

Lemma reachable_nodes_is_list m this cells sz fuel :
  is_list m this cells sz → (length cells ≤ fuel)%nat →
  reachable_nodes fuel this m = Done (length cells) m.
Proof.
  intros (hv & nx & Hn & _ & Hchain) Hfuel. unfold reachable_nodes.
  rewrite (bind_Done _ _ _ _ _ (get_next_Some _ _ _ Hn)). simpl.
  by apply count_nodes_chain.
Qed.

(** Incrementing [n] times along a chain is always defined: the iterator
    walks the chain and, once at [end()], stays there. *)
Lemma advance_chain m (n : nat) : ∀ cells p,
  chain m p cells →
  advance n (Iterator p) m = Done (Iterator (fst <$> head (drop n cells))) m.
Proof.
  induction n as [|n IH]; intros cells p Hchain.
  - simpl. rewrite drop_0. by rewrite (chain_head_pointer _ _ _ Hchain).
  - destruct cells as [|[a v] rest].
    + unfold chain in Hchain. simpl in Hchain. subst p.
      change (advance (S n) (Iterator None) m) with (advance n (Iterator None) m).
      rewrite (IH [] None); [|done]. by rewrite !drop_nil.
    + pose proof Hchain as (-> & _).
      destruct (pre_increment_cell _ _ _ _ Hchain) as (nx & Hinc & Hrest).
      simpl. rewrite (bind_Done _ _ _ _ _ Hinc). by apply IH.
Qed.

(** [std::lexicographical_compare] on two chains computes [less_values]. *)
Lemma std_lexicographical_compare_chain m cells1 : ∀ cells2 p1 p2 fuel,
  chain m p1 cells1 → chain m p2 cells2 →
  (length cells1 `min` length cells2 ≤ fuel)%nat →
  std_lexicographical_compare fuel (Iterator p1) (Iterator None)
    (Iterator p2) (Iterator None) m
  = Done (less_values (values_of cells1) (values_of cells2)) m.
Proof.
  induction cells1 as [|[a v] rest1 IH]; intros cells2 p1 p2 fuel H1 H2 Hfuel.
  - unfold chain in H1. simpl in H1. subst p1.
    destruct cells2 as [|[b w] rest2].
    + unfold chain in H2. simpl in H2. subst p2. by destruct fuel.
    + pose proof H2 as (-> & _). by destruct fuel.
  - pose proof H1 as (-> & _).
    destruct cells2 as [|[b w] rest2].
    + unfold chain in H2. simpl in H2. subst p2. by destruct fuel.
    + pose proof H2 as (-> & _).
      destruct fuel as [|fuel]; [simpl in Hfuel; lia|]. simpl.
      rewrite (bind_Done _ _ _ _ _ (dereference_cell _ _ _ _ H1)).
      rewrite (bind_Done _ _ _ _ _ (dereference_cell _ _ _ _ H2)).
      destruct (value_lt v w); [done|]. destruct (value_lt w v); [done|].
      destruct (pre_increment_cell _ _ _ _ H1) as (nx1 & Hinc1 & Hrest1).
      destruct (pre_increment_cell _ _ _ _ H2) as (nx2 & Hinc2 & Hrest2).
      rewrite (bind_Done _ _ _ _ _ Hinc1), (bind_Done _ _ _ _ _ Hinc2).
      apply IH; [done..|]. simpl in Hfuel. lia.
Qed.

Lemma operator_lt_is_list m lhs rhs cells1 cells2 sz1 sz2 fuel :
  is_list m lhs cells1 sz1 → is_list m rhs cells2 sz2 →
  (length cells1 `min` length cells2 ≤ fuel)%nat →
  operator_lt fuel lhs rhs m
  = Done (less_values (values_of cells1) (values_of cells2)) m.
Proof.
  intros Hl Hr Hfuel.
  destruct (begin_is_list _ _ _ _ Hl) as (p1 & Hb1 & Hc1).
  destruct (begin_is_list _ _ _ _ Hr) as (p2 & Hb2 & Hc2).
  unfold operator_lt. rewrite (bind_Done _ _ _ _ _ Hb1). unfold end_ at 1. rewrite bind_ret.
  rewrite (bind_Done _ _ _ _ _ Hb2). unfold end_. rewrite bind_ret.
  by apply std_lexicographical_compare_chain.
Qed.

(** [less_values] is the lexicographic order of the specification. *)
Lemma less_values_lexicographic (xs : list Type_) : ∀ ys,
  less_values xs ys = true ↔ lexicographically_less xs ys.
Proof.
  induction xs as [|x xs IH]; intros [|y ys]; simpl.
  - split; [done|]. intros (n & _ & [[_ [? Hy]]|(? & ? & Hx & _)]); by destruct n.
  - split; [|done]. intros _. exists O. split; [lia|]. left. simpl. eauto.
  - split; [done|]. intros (n & Hpre & [[Hx _]|(? & ? & _ & Hy & _)]).
    + destruct n; [done|]. destruct (Hpre O) as (? & ? & _ & ? & _); [lia|done].
    + destruct n; [done|]. destruct (Hpre O) as (? & ? & _ & ? & _); [lia|done].
  - destruct (value_lt x y) eqn:Hxy.
    { split; [|done]. intros _. exists O. split; [lia|]. right. exists x, y. done. }
    destruct (value_lt y x) eqn:Hyx.
    { split; [done|]. intros (n & Hpre & Hat). destruct n as [|n].
      - destruct Hat as [[? _]|(? & ? & ? & ? & ?)]; [done|]. simplify_eq/=. congruence.
      - destruct (Hpre O) as (? & ? & ? & ? & ? & ?); [lia|]. simplify_eq/=. congruence. }
    rewrite IH. split.
    + intros (n & Hpre & Hat). exists (S n). split; [|done].
      intros [|i] Hi; [exists x, y; done|]. apply Hpre. lia.
    + intros (n & Hpre & Hat). destruct n as [|n].
      * destruct Hat as [[? _]|(? & ? & ? & ? & ?)]; [done|]. simplify_eq/=. congruence.
      * exists n. split; [|done]. intros i Hi. apply (Hpre (S i)). lia.
Qed.

(** [std::equal] on two chains computes [equal_values]; reading the second
    range past its end is undefined behaviour. *)
Lemma std_equal_chain m cells1 : ∀ cells2 p1 p2 fuel,
  chain m p1 cells1 → chain m p2 cells2 →
  (length cells1 ≤ fuel)%nat →
  std_equal fuel (Iterator p1) (Iterator None) (Iterator p2) m
  = match equal_values (values_of cells1) (values_of cells2) with
    | Some b => Done b m
    | None => Undefined
    end.
Proof.
  induction cells1 as [|[a v] rest1 IH]; intros cells2 p1 p2 fuel H1 H2 Hfuel.
  - unfold chain in H1. simpl in H1. subst p1. by destruct fuel.
  - pose proof H1 as (-> & _).
    destruct fuel as [|fuel]; [simpl in Hfuel; lia|]. simpl.
    rewrite (bind_Done _ _ _ _ _ (dereference_cell _ _ _ _ H1)).
    destruct cells2 as [|[b w] rest2].
    + unfold chain in H2. simpl in H2. subst p2. reflexivity.
    + pose proof H2 as (-> & _).
      rewrite (bind_Done _ _ _ _ _ (dereference_cell _ _ _ _ H2)).
      unfold values_of. simpl. fold (values_of rest1) (values_of rest2).
      destruct (negb (value_eq v w)); [done|].
      destruct (pre_increment_cell _ _ _ _ H1) as (nx1 & Hinc1 & Hrest1).
      destruct (pre_increment_cell _ _ _ _ H2) as (nx2 & Hinc2 & Hrest2).
      rewrite (bind_Done _ _ _ _ _ Hinc1), (bind_Done _ _ _ _ _ Hinc2).
      apply IH; [done..|]. simpl in Hfuel. lia.
Qed.

Lemma operator_eq_is_list m lhs rhs cells1 cells2 sz1 sz2 fuel :
  is_list m lhs cells1 sz1 → is_list m rhs cells2 sz2 →
  (length cells1 ≤ fuel)%nat →
  operator_eq fuel lhs rhs m
  = match equal_values (values_of cells1) (values_of cells2) with
    | Some b => Done b m
    | None => Undefined
    end.
Proof.
  intros Hl Hr Hfuel.
  destruct (begin_is_list _ _ _ _ Hl) as (p1 & Hb1 & Hc1).
  destruct (begin_is_list _ _ _ _ Hr) as (p2 & Hb2 & Hc2).
  unfold operator_eq. rewrite (bind_Done _ _ _ _ _ Hb1). unfold end_. rewrite bind_ret.
  rewrite (bind_Done _ _ _ _ _ Hb2).
  by apply std_equal_chain.
Qed.

(** On sequences of the same length, [std::equal] decides the equality of
    the specification. *)
Lemma equal_values_same_length (xs : list Type_) : ∀ ys,
  length xs = length ys →
  (equal_values xs ys = Some true ↔ same_length_equal_values xs ys).
Proof.
  induction xs as [|x xs IH]; intros [|y ys] Hlen; simpl in Hlen; try done.
  injection Hlen as Hlen. simpl. destruct (value_eq x y) eqn:Hxy; simpl.
  - rewrite (IH ys Hlen). split.
    + intros [_ Hall]. split; [simpl; congruence|].
      intros [|i] x' y' Hx Hy; simpl in *; [congruence|eauto].
    + intros [_ Hall]. split; [done|]. intros i x' y' Hx Hy. by apply (Hall (S i)).
  - split; [done|]. intros [_ Hall].
    specialize (Hall O x y eq_refl eq_refl). congruence.
Qed.

(** A sequence compares equal to every sequence it is a prefix of. *)
Lemma equal_values_prefix (xs ys : list Type_) :
  (∀ x, value_eq x x = true) → equal_values xs (xs ++ ys) = Some true.
Proof.
  intros Hrefl. induction xs as [|x xs IH]; simpl; [done|]. by rewrite Hrefl.
Qed.

(** [IsEmpty] answers whether [size_] is 0, whatever the chain holds. *)
Lemma IsEmpty_GetSize m this :
  IsEmpty this m
  = match GetSize this m with
    | Done s m' => Done (bool_decide (s = 0)) m'
    | Undefined => Undefined
    | OutOfFuel => OutOfFuel
    end.
Proof.
  unfold IsEmpty, GetSize, bind. destruct (get_size this m) as [s m'| |]; [|done..].
  reflexivity.
Qed.

End Reading.

(** ** Changing a list *)

Section Writing.

Context {Type_ : Type} `{ElementType Type_}.

Implicit Types (m : Memory Type_) (p q : option addr) (a this : positive)
  (cells : list (positive * Type_)).

Lemma increment_size_Some m this s :
  sizes m !! this = Some s →
  increment_size this m
  = Done tt {| nodes := nodes m; sizes := <[this := wrap (s + 1)]> (sizes m) |}.
Proof.
  intros Hs. unfold increment_size.
  rewrite (bind_Done _ _ _ _ _ (get_size_Some _ _ _ Hs)).
  by apply set_size_Some with s.
Qed.

Lemma decrement_size_Some m this s :
  sizes m !! this = Some s →
  decrement_size this m
  = Done tt {| nodes := nodes m; sizes := <[this := wrap (s - 1)]> (sizes m) |}.
Proof.
  intros Hs. unfold decrement_size.
  rewrite (bind_Done _ _ _ _ _ (get_size_Some _ _ _ Hs)).
  by apply set_size_Some with s.
Qed.

(** [PushFront] on a well-formed list: the new node sits at a fresh address,
    in front of the old chain, and [size_] is incremented. *)
Lemma PushFront_is_list m this cells sz x :
  is_list m this cells sz →
  ∃ m', PushFront this x m = Done tt m' ∧
        is_list m' this ((fresh_addr m, x) :: cells) (wrap (sz + 1)) ∧
        (∀ b, b ≠ this → b ≠ fresh_addr m → nodes m' !! b = nodes m !! b) ∧
        (∀ b, b ≠ this → sizes m' !! b = sizes m !! b).
Proof.
  intros (hv & nx & Hn & Hs & Hchain).
  pose proof (fresh_addr_nodes m) as Hfn. pose proof (fresh_addr_sizes m) as Hfs.
  set (a := fresh_addr m) in *.
  assert (Hne : a ≠ this) by congruence.
  eexists. split.
  - unfold PushFront.
    rewrite (bind_Done _ _ _ _ _ (get_next_Some _ _ _ Hn)). simpl.
    unfold new_Node at 1. unfold bind at 1. fold a.
    set (m1 := {| nodes := <[a := {| value := x; next_node := nx |}]> (nodes m);
                  sizes := sizes m |}).
    assert (Hn1 : nodes m1 !! this = Some {| value := hv; next_node := nx |})
      by (simpl; by rewrite lookup_insert_ne).
    rewrite (bind_Done _ _ _ _ _ (set_next_Some _ _ _ (Some a) Hn1)).
    simpl. by apply increment_size_Some.
  - split; [|split].
    + exists hv, (Some a). simpl. split; [by rewrite lookup_insert_eq|].
      split; [by rewrite lookup_insert_eq|].
      split; [done|]. simpl. split; [by rewrite lookup_insert_ne|].
      exists nx. split; [rewrite lookup_insert_ne; [by rewrite lookup_insert_eq|done]|].
      eapply segment_frame; [|exact Hchain]. simpl. intros b Hb.
      destruct (segment_cells_on_heap _ _ _ _ _ Hchain Hb) as [Hbs [nb Hbn]].
      assert (b ≠ this) by congruence. assert (b ≠ a) by congruence.
      by rewrite !lookup_insert_ne.
    + intros b ? ?. simpl. by rewrite !lookup_insert_ne.
    + intros b ?. simpl. by rewrite lookup_insert_ne.
Qed.

(** Whatever the memory, inserting after the sentinel and pushing to the
    front run the same steps: same outcome, same final memory; [InsertAfter]
    also hands back an iterator, which is [begin()] of the list afterwards. *)
Lemma InsertAfter_before_begin_PushFront m this x :
  match InsertAfter this (Iterator (Some this)) x m with
  | Done it m' => PushFront this x m = Done tt m' ∧ begin this m' = Done it m'
  | Undefined => PushFront this x m = Undefined
  | OutOfFuel => PushFront this x m = OutOfFuel
  end.
Proof.
  unfold InsertAfter, PushFront, bind, begin, bind. simpl.
  destruct (get_next (Some this) m) as [after m1| |] eqn:Hnext; [|done..].
  set (new_node := Some (fresh_addr m1)).
  set (m2 := {| nodes := <[fresh_addr m1 := {| value := x; next_node := after |}]> (nodes m1);
                sizes := sizes m1 |}).
  destruct (set_next (Some this) new_node m2) as [[] m3| |] eqn:Hset; [|done..].
  destruct (increment_size this m3) as [[] m4| |] eqn:Hinc; [|done..].
  unfold ret. split; [done|].
  (* [begin] reads back the pointer [set_next] has just stored *)
  unfold set_next, bind, load in Hset.
  destruct (nodes m2 !! this) as [n|] eqn:Hn; simpl in Hset; [|done].
  injection Hset as <-.
  unfold increment_size, set_size, bind, get_size in Hinc. simpl in Hinc.
  destruct (sizes m1 !! this) as [s|] eqn:Hs; simpl in Hinc; [|done].
  rewrite Hs in Hinc. injection Hinc as <-.
  unfold get_next, bind, load. simpl. by rewrite lookup_insert_eq.
Qed.

(** [PopFront] on a well-formed list drops the first node, when there is
    one, and leaves [size_] alone. *)
Lemma PopFront_is_list m this cells sz :
  is_list m this cells sz →
  ∃ m', PopFront this m = Done tt m' ∧
        is_list m' this (tail cells) sz ∧
        sizes m' = sizes m ∧
        (∀ c, head cells = Some c → nodes m' !! c.1 = None).
Proof.
  intros (hv & nx & Hn & Hs & Hchain).
  destruct cells as [|[a v] rest].
  - unfold chain in Hchain. simpl in Hchain. subst nx.
    exists m. split; [|split; [|split]]; [|by exists hv, None|done|done].
    unfold PopFront. by rewrite (bind_Done _ _ _ _ _ (get_next_Some _ _ _ Hn)).
  - pose proof Hchain as (-> & Has & nx & Han & Hrest).
    assert (Hne : a ≠ this) by congruence.
    pose proof (chain_head_not_in_tail _ _ _ _ Hchain) as Hnotin.
    set (m1 := {| nodes := <[this := {| value := hv; next_node := nx |}]> (nodes m);
                  sizes := sizes m |}).
    assert (Hset : set_next (Some this) nx m = Done tt m1)
      by (by rewrite (set_next_Some _ _ _ _ Hn)).
    exists {| nodes := delete a (nodes m1); sizes := sizes m1 |}.
    split; [|split; [|split]].
    + unfold PopFront.
      rewrite (bind_Done _ _ _ _ _ (get_next_Some _ _ _ Hn)). simpl.
      rewrite (bind_Done _ _ _ _ _ (get_next_Some _ _ _ Han)). simpl.
      assert (Hset' : match nx with
                      | Some _ => set_next (Some this) nx
                      | None => set_next (Some this) None
                      end m = Done tt m1) by (by destruct nx).
      erewrite bind_Done; [|exact Hset'].
      apply (delete_Node_Some m1 a {| value := v; next_node := nx |}); simpl; [|done].
      by rewrite lookup_insert_ne.
    + exists hv, nx. simpl.
      split; [rewrite lookup_delete_ne; [by rewrite lookup_insert_eq|done]|].
      split; [done|].
      eapply segment_frame; [|exact Hrest]. simpl. intros b Hb.
      destruct (segment_cells_on_heap _ _ _ _ _ Hrest Hb) as [Hbs _].
      assert (b ≠ this) by congruence. assert (b ≠ a) by (intros ->; done).
      rewrite lookup_delete_ne, lookup_insert_ne; done.
    + done.
    + intros c [= <-]. simpl. by rewrite lookup_delete_eq.
Qed.

(** The loop of [Clear] deletes the nodes of a chain one by one. *)
Lemma Clear_loop_chain this cells : ∀ fuel p m s,
  chain m p cells → sizes m !! this = Some s → (length cells ≤ fuel)%nat →
  ∃ m', Clear_loop fuel this p m = Done tt m' ∧
        (∀ b, b ∈ cells.*1 → nodes m' !! b = None) ∧
        (∀ b, b ∉ cells.*1 → nodes m' !! b = nodes m !! b) ∧
        is_Some (sizes m' !! this) ∧
        (∀ b, b ≠ this → sizes m' !! b = sizes m !! b).
Proof.
  induction cells as [|[a v] rest IH]; intros fuel p m s Hchain Hs Hfuel.
  - unfold chain in Hchain. simpl in Hchain. subst p. exists m.
    split; [by destruct fuel|]. split; [by intros b ?%elem_of_nil|]. eauto.
  - pose proof Hchain as (-> & Has & nx & Han & Hrest).
    pose proof (chain_head_not_in_tail _ _ _ _ Hchain) as Hnotin.
    destruct fuel as [|fuel]; [simpl in Hfuel; lia|]. simpl.
    rewrite (bind_Done _ _ _ _ _ (get_next_Some _ _ _ Han)). simpl.
    rewrite (bind_Done _ _ _ _ _ (delete_Node_Some _ _ _ Han Has)).
    set (m1 := {| nodes := delete a (nodes m); sizes := sizes m |}).
    rewrite (bind_Done _ _ _ _ _ (decrement_size_Some m1 this s Hs)). simpl.
    set (m2 := {| nodes := delete a (nodes m);
                  sizes := <[this := wrap (s - 1)]> (sizes m) |}).
    assert (Hrest2 : chain m2 nx rest).
    { eapply segment_frame; [|exact Hrest]. simpl. intros b Hb.
      destruct (segment_cells_on_heap _ _ _ _ _ Hrest Hb) as [Hbs _].
      assert (b ≠ this) by congruence. assert (b ≠ a) by (intros ->; done).
      rewrite lookup_delete_ne, lookup_insert_ne; done. }
    destruct (IH fuel nx m2 (wrap (s - 1)) Hrest2) as (m' & Hrun & Hgone & Hkept & Hsz & Hszs).
    { simpl. by rewrite lookup_insert_eq. }
    { simpl in Hfuel. lia. }
    exists m'. split; [done|]. split; [|split; [|split]].
    + intros b [->|Hb]%elem_of_cons; [|by apply Hgone].
      rewrite (Hkept a Hnotin). simpl. by rewrite lookup_delete_eq.
    + intros b Hb. apply not_elem_of_cons in Hb as [Hba Hb].
      rewrite (Hkept b Hb). simpl. by rewrite lookup_delete_ne.
    + done.
    + intros b Hb. rewrite (Hszs b Hb). simpl. by rewrite lookup_insert_ne.
Qed.

(** [Clear] on a well-formed list: it returns, every node of the chain is
    gone, the sentinel's [next_node] is [nullptr] and [size_] is 0; the rest
    of the memory is untouched. *)
Lemma Clear_is_list m this cells sz fuel :
  is_list m this cells sz → (length cells ≤ fuel)%nat →
  ∃ m', Clear fuel this m = Done tt m' ∧
        is_list m' this [] 0 ∧
        (∀ b, b ∈ cells.*1 → nodes m' !! b = None) ∧
        (∀ b, b ≠ this → b ∉ cells.*1 → nodes m' !! b = nodes m !! b) ∧
        (∀ b, b ≠ this → sizes m' !! b = sizes m !! b).
Proof.
  intros Hlist Hfuel.
  pose proof (is_list_sentinel_not_cell _ _ _ _ Hlist) as Hthis.
  destruct Hlist as (hv & nx & Hn & Hs & Hchain).
  destruct (Clear_loop_chain this cells fuel nx m sz Hchain Hs Hfuel)
    as (m1 & Hloop & Hgone & Hkept & [s1 Hs1] & Hszs).
  assert (Hloop' : match nx with
                   | Some _ => Clear_loop fuel this nx
                   | None => ret tt
                   end m = Done tt m1).
  { destruct nx; [done|]. by destruct fuel. }
  assert (Hn1 : nodes m1 !! this = Some {| value := hv; next_node := nx |})
    by (by rewrite (Hkept this Hthis)).
  eexists. split.
  - unfold Clear. rewrite (bind_Done _ _ _ _ _ (get_next_Some _ _ _ Hn)). simpl.
    erewrite bind_Done; [|exact Hloop'].
    rewrite (bind_Done _ _ _ _ _ (set_next_Some _ _ _ None Hn1)). simpl.
    by apply set_size_Some with s1.
  - simpl. split; [|split; [|split]].
    + exists hv, None. simpl. rewrite !lookup_insert_eq. done.
    + intros b Hb. simpl. rewrite lookup_insert_ne; [by apply Hgone|].
      intros <-. done.
    + intros b Hb Hnotin. simpl. rewrite lookup_insert_ne; [by apply Hkept|done].
    + intros b Hb. simpl. rewrite lookup_insert_ne; [by apply Hszs|done].
Qed.

Lemma allocate_list_is_list m :
  ∃ m', allocate_list m = Done (fresh_addr m) m' ∧
        is_list m' (fresh_addr m) [] 0 ∧
        (∀ b, b ≠ fresh_addr m → nodes m' !! b = nodes m !! b) ∧
        (∀ b, b ≠ fresh_addr m → sizes m' !! b = sizes m !! b).
Proof.
  eexists. split; [reflexivity|]. simpl. split; [|split].
  - exists default_value, None. simpl. by rewrite !lookup_insert_eq.
  - intros b Hb. by rewrite lookup_insert_ne.
  - intros b Hb. by rewrite lookup_insert_ne.
Qed.

(** [n] increments of a [size_] that starts at 0. *)
Lemma iter_increment_from_zero (n : nat) :
  Nat.iter n (λ s, wrap (s + 1)) 0 = wrap (Z.of_nat n).
Proof.
  induction n as [|n IH]; [done|].
  rewrite Nat.iter_succ, IH. unfold wrap.
  rewrite Zplus_mod_idemp_l. f_equal. lia.
Qed.

(** Pushing [reversed] value by value puts its reversal in front of the
    chain. *)
Lemma PushFront_each_is_list this reversed : ∀ m cells sz,
  is_list m this cells sz →
  ∃ m' cells',
    PushFront_each this reversed m = Done tt m' ∧
    is_list m' this (cells' ++ cells)
      (Nat.iter (length reversed) (λ s, wrap (s + 1)) sz) ∧
    values_of cells' = rev reversed ∧
    (∀ b, b ≠ this → is_Some (nodes m !! b) → nodes m' !! b = nodes m !! b) ∧
    (∀ b, b ≠ this → sizes m' !! b = sizes m !! b).
Proof.
  induction reversed as [|x rest IH]; intros m cells sz Hlist.
  - exists m, []. simpl. eauto.
  - destruct (PushFront_is_list m this cells sz x Hlist)
      as (m1 & Hpush & Hlist1 & Hnodes1 & Hsizes1).
    destruct (IH m1 _ _ Hlist1) as (m' & cells' & Hrun & Hlist' & Hvals & Hnodes & Hsizes).
    exists m', (cells' ++ [(fresh_addr m, x)]). split; [|split; [|split; [|split]]].
    + simpl. by rewrite (bind_Done _ _ _ _ _ Hpush).
    + rewrite <- app_assoc. change (length (x :: rest)) with (S (length rest)).
      rewrite Nat.iter_succ_r. exact Hlist'.
    + unfold values_of in *. rewrite fmap_app, Hvals. done.
    + intros b Hb [n Hbn].
      assert (b ≠ fresh_addr m) by (intros ->; rewrite fresh_addr_nodes in Hbn; done).
      rewrite Hnodes; [by apply Hnodes1|done|]. rewrite Hnodes1; eauto.
    + intros b Hb. rewrite Hsizes; [by apply Hsizes1|done].
Qed.

(** The initializer-list constructor builds, at a fresh address, a list
    whose chain carries [values] in the order given. *)
Lemma SingleLinkedList_init_is_list m fuel values :
  ∃ m' cells,
    SingleLinkedList_init fuel values m = Done (fresh_addr m) m' ∧
    is_list m' (fresh_addr m) cells (wrap (Z.of_nat (length values))) ∧
    values_of cells = values ∧
    (∀ b, is_Some (nodes m !! b) → nodes m' !! b = nodes m !! b) ∧
    (∀ b, is_Some (sizes m !! b) → sizes m' !! b = sizes m !! b).
Proof.
  destruct (allocate_list_is_list m) as (m1 & Halloc & Hlist1 & Hnodes1 & Hsizes1).
  set (this := fresh_addr m) in *.
  destruct (Clear_is_list m1 this [] 0 fuel Hlist1) as (m2 & Hclear & Hlist2 & _ & Hnodes2 & Hsizes2).
  { simpl. lia. }
  destruct (PushFront_each_is_list this (rev values) m2 [] 0 Hlist2)
    as (m3 & cells & Hpush & Hlist3 & Hvals & Hnodes3 & Hsizes3).
  exists m3, cells. split; [|split; [|split; [|split]]].
  - unfold SingleLinkedList_init.
    rewrite (bind_Done _ _ _ _ _ Halloc), (bind_Done _ _ _ _ _ Hclear),
      (bind_Done _ _ _ _ _ Hpush). reflexivity.
  - rewrite app_nil_r, length_rev, iter_increment_from_zero in Hlist3. done.
  - by rewrite Hvals, rev_involutive.
  - intros b [n Hbn].
    assert (b ≠ this) by (intros ->; unfold this in Hbn; rewrite fresh_addr_nodes in Hbn; done).
    assert (Hb2 : nodes m2 !! b = nodes m !! b).
    { rewrite Hnodes2; [by apply Hnodes1|done|]. by intros ?%elem_of_nil. }
    rewrite Hnodes3; [done|done|]. rewrite Hb2. eauto.
  - intros b [s Hbs].
    assert (b ≠ this) by (intros ->; unfold this in Hbs; rewrite fresh_addr_sizes in Hbs; done).
    rewrite Hsizes3, Hsizes2, Hsizes1; done.
Qed.

(** [EraseAfter] on a well-formed list, at the sentinel ([before = []]) or at
    the last node of [before]: the node after the position leaves the chain
    and is deleted, the iterator handed back references the node that now
    follows the position, and [size_] is left alone. *)
Lemma EraseAfter_is_list m this before c after sz :
  is_list m this (before ++ c :: after) sz →
  ∃ m', EraseAfter this (Iterator (Some (default this (last before.*1)))) m
        = Done (Iterator (fst <$> head after)) m' ∧
        is_list m' this (before ++ after) sz ∧
        nodes m' !! c.1 = None.
Proof.
  intros Hlist.
  pose proof (is_list_sentinel_not_cell _ _ _ _ Hlist) as Hthis.
  destruct Hlist as (hv & hnx & Hn & Hs & Hchain).
  pose proof (chain_NoDup _ _ _ Hchain) as Hnodup.
  destruct c as [a v].
  destruct before as [|[b w] before' _] using rev_ind.
  - (* the position is the sentinel *)
    simpl in *. pose proof Hchain as (-> & Has & nx & Han & Hafter).
    apply NoDup_cons in Hnodup as [Hnotin _].
    assert (a ≠ this) by congruence.
    pose proof (chain_head_pointer _ _ _ Hafter) as Hnx.
    set (m1 := {| nodes := <[this := {| value := hv; next_node := nx |}]> (nodes m);
                  sizes := sizes m |}).
    set (m2 := {| nodes := delete a (nodes m1); sizes := sizes m1 |}).
    assert (Hn2 : nodes m2 !! this = Some {| value := hv; next_node := nx |}).
    { simpl. rewrite lookup_delete_ne; [by rewrite lookup_insert_eq|done]. }
    exists m2. split; [|split].
    + unfold EraseAfter. simpl.
      rewrite (bind_Done _ _ _ _ _ (get_next_Some _ _ _ Hn)). simpl.
      rewrite (bind_Done _ _ _ _ _ (get_next_Some _ _ _ Han)). simpl.
      rewrite (bind_Done _ _ _ _ _ (set_next_Some _ _ _ nx Hn)). simpl. fold m1.
      rewrite (bind_Done _ _ _ _ _
        (delete_Node_Some m1 a {| value := v; next_node := nx |}
           ltac:(simpl; by rewrite lookup_insert_ne) Has)).
      fold m2. rewrite (bind_Done _ _ _ _ _ (get_next_Some _ _ _ Hn2)). simpl.
      by rewrite Hnx.
    + exists hv, nx. split; [done|]. split; [done|].
      eapply segment_frame; [|exact Hafter]. simpl. intros d Hd.
      destruct (segment_cells_on_heap _ _ _ _ _ Hafter Hd) as [Hds _].
      assert (d ≠ this) by congruence. assert (d ≠ a) by (intros ->; done).
      rewrite lookup_delete_ne, lookup_insert_ne; done.
    + simpl. by rewrite lookup_delete_eq.
  - (* the position is the node [b], the last one before the erased node *)
    rewrite fmap_app. change ([(b, w)].*1) with [b]. rewrite last_snoc. simpl.
    rewrite <- app_assoc in Hchain, Hnodup, Hthis. simpl in Hchain, Hnodup, Hthis.
    pose proof Hchain as Hsplit. apply segment_app in Hsplit as (r & Hbefore & Htail).
    destruct Htail as (-> & Hbs & ? & Hbn & (-> & Has & nx & Han & Hafter)).
    rewrite fmap_app in Hnodup, Hthis. simpl in Hnodup, Hthis.
    apply NoDup_app in Hnodup as (_ & Hdisjoint & Htailnodup).
    apply NoDup_cons in Htailnodup as [Hb_notin Htailnodup].
    apply NoDup_cons in Htailnodup as [Ha_notin _].
    assert (a ≠ b) by (intros ->; apply Hb_notin, elem_of_cons; by left).
    assert (b ≠ this) by congruence. assert (a ≠ this) by congruence.
    pose proof (chain_head_pointer _ _ _ Hafter) as Hnx.
    set (m1 := {| nodes := <[b := {| value := w; next_node := nx |}]> (nodes m);
                  sizes := sizes m |}).
    set (m2 := {| nodes := delete a (nodes m1); sizes := sizes m1 |}).
    assert (Hb2 : nodes m2 !! b = Some {| value := w; next_node := nx |}).
    { simpl. rewrite lookup_delete_ne; [by rewrite lookup_insert_eq|done]. }
    exists m2. split; [|split].
    + unfold EraseAfter. simpl.
      rewrite (bind_Done _ _ _ _ _ (get_next_Some _ _ _ Hbn)). simpl.
      rewrite (bind_Done _ _ _ _ _ (get_next_Some _ _ _ Han)). simpl.
      rewrite (bind_Done _ _ _ _ _ (set_next_Some _ _ _ nx Hbn)). simpl. fold m1.
      rewrite (bind_Done _ _ _ _ _
        (delete_Node_Some m1 a {| value := v; next_node := nx |}
           ltac:(simpl; by rewrite lookup_insert_ne) Has)).
      fold m2. rewrite (bind_Done _ _ _ _ _ (get_next_Some _ _ _ Hb2)). simpl.
      by rewrite Hnx.
    + exists hv, hnx. split; [|split; [done|]].
      { simpl. rewrite lookup_delete_ne, lookup_insert_ne; done. }
      rewrite <- app_assoc. apply segment_app. exists (Some b). split.
      * eapply segment_frame; [|exact Hbefore]. simpl. intros d Hd.
        assert (d ≠ b) by (intros ->; apply (Hdisjoint b Hd), elem_of_cons; by left).
        assert (d ≠ a).
        { intros ->. apply (Hdisjoint a Hd), elem_of_cons. right.
          apply elem_of_cons. by left. }
        rewrite lookup_delete_ne, lookup_insert_ne; done.
      * simpl. split; [done|]. split; [done|]. exists nx. split; [done|].
        eapply segment_frame; [|exact Hafter]. simpl. intros d Hd.
        assert (d ≠ a) by (intros ->; done).
        assert (d ≠ b) by (intros ->; apply Hb_notin, elem_of_cons; by right).
        rewrite lookup_delete_ne, lookup_insert_ne; done.
    + simpl. by rewrite lookup_delete_eq.
Qed.

End Writing.

(** ** The operations of the container, property by property *)

(** C1, at the input [{1, 2}]: [PopFront] removes the first element (one
    node is left, the range-for sees 2 alone), yet [GetSize] answers 2
    before and 2 after: the count does not drop by 1. *)
Theorem PopFront_size_not_decremented :
  result (pop_front_program empty_memory) = Some (2, 2, 1%nat, [2]).
Proof. vm_compute. reflexivity. Qed.

(** C2, at the input [{1, 2, 3}] and the position [begin()]: [EraseAfter]
    removes the node after the position (the list reads 1, 3) and hands back
    an iterator to the node that now follows it (value 3), yet [GetSize]
    answers 3 before and 3 after. *)
Theorem EraseAfter_size_not_decremented :
  result (erase_after_program empty_memory) = Some (3, 3, 2%nat, [1; 3], 3).
Proof. vm_compute. reflexivity. Qed.

(** C3, at the inputs [{1, 2}] and [{1, 2, 3}]: [operator==] answers [true]
    for two lists of different lengths when the left one is a prefix of the
    right one, and with the operands swapped it reads past the end of the
    shorter list. *)
Theorem operator_eq_accepts_proper_prefix :
  result (equality_program [1; 2] [1; 2; 3] empty_memory) = Some true ∧
  equality_program [1; 2; 3] [1; 2] empty_memory = Undefined.
Proof. split; vm_compute; reflexivity. Qed.

(** C4, after [PushFront(1); PopFront()] on a fresh list: [GetSize] answers
    1 although no real node is reachable from the sentinel, and [IsEmpty]
    answers [false]. *)
Theorem size_exceeds_reachable_nodes :
  result (push_pop_program empty_memory) = Some (1, 0%nat, false).
Proof. vm_compute. reflexivity. Qed.

Example copy_is_deep :
  result (copy_program empty_memory) = Some ([], 0, [0; 1; 2; 3], 4).
Proof. vm_compute. reflexivity. Qed.

Example assign_and_swap :
  result (assign_swap_program empty_memory)
  = Some ([8; 9], 2, [1; 2], 2, [1; 2], 2).
Proof. vm_compute. reflexivity. Qed.

Example less_proper_prefix :
  result (less_program [1; 2] [1; 2; 3] empty_memory) = Some true.
Proof. vm_compute. reflexivity. Qed.

Example less_first_difference :
  result (less_program [1; 2; 3] [1; 3] empty_memory) = Some true.
Proof. vm_compute. reflexivity. Qed.

Example less_empty_nonempty :
  result (less_program [] [5] empty_memory) = Some true.
Proof. vm_compute. reflexivity. Qed.

Example not_less_empty_empty :
  result (less_program [] [] empty_memory) = Some false.
Proof. vm_compute. reflexivity. Qed.

Example not_less_longer :
  result (less_program [1; 2; 3] [1; 2] empty_memory) = Some false.
Proof. vm_compute. reflexivity. Qed.

Section Properties.

Context {Type_ : Type} `{ElementType Type_}.

Implicit Types (m : Memory Type_) (this lhs rhs : positive)
  (cells : list (positive * Type_)).

(** C5: on two well-formed lists [operator<] returns, leaves the memory
    alone, and answers [true] exactly when the left value sequence is
    lexicographically less than the right one: less at the first position
    where the two differ, or a proper prefix.  In particular the empty list
    is less than every non-empty list. *)
Theorem operator_lt_lexicographic m lhs rhs cells1 cells2 sz1 sz2 fuel :
  is_list m lhs cells1 sz1 → is_list m rhs cells2 sz2 →
  (length cells1 `min` length cells2 ≤ fuel)%nat →
  ∃ b, operator_lt fuel lhs rhs m = Done b m ∧
       (b = true ↔ lexicographically_less (values_of cells1) (values_of cells2)) ∧
       (cells1 = [] → cells2 ≠ [] → b = true).
Proof.
  intros Hl Hr Hfuel.
  exists (less_values (values_of cells1) (values_of cells2)).
  split; [by eapply operator_lt_is_list|]. split.
  - apply less_values_lexicographic.
  - intros -> Hne. by destruct cells2.
Qed.

(** C7: on a well-formed list, [InsertAfter(before_begin(), x)] and
    [PushFront(x)] end in the same memory, where the list reads [x] followed
    by the old values and [size_] is one more; the iterator [InsertAfter]
    hands back is [begin()] of the new list and dereferences to [x]. *)
Theorem InsertAfter_before_begin_same_as_PushFront m this cells sz x :
  is_list m this cells sz →
  ∃ pos it m',
    before_begin this m = Done pos m ∧
    InsertAfter this pos x m = Done it m' ∧
    PushFront this x m = Done tt m' ∧
    iterate (S (length cells)) this m' = Done (x :: values_of cells) m' ∧
    GetSize this m' = Done (wrap (sz + 1)) m' ∧
    begin this m' = Done it m' ∧
    dereference it m' = Done x m'.
Proof.
  intros Hlist.
  destruct (PushFront_is_list m this cells sz x Hlist) as (m' & Hpush & Hlist' & _).
  pose proof (InsertAfter_before_begin_PushFront m this x) as Hsame.
  destruct (InsertAfter this (Iterator (Some this)) x m) as [it m''| |] eqn:Hins;
    [|congruence..].
  destruct Hsame as [Hpush' Hbegin]. assert (m'' = m') as -> by congruence.
  exists (Iterator (Some this)), it, m'.
  destruct (begin_is_list _ _ _ _ Hlist') as (p & Hbegin' & Hchain).
  assert (it = Iterator p) as -> by congruence.
  pose proof Hchain as (-> & _).
  split; [done|]. split; [done|]. split; [done|]. split.
  { by rewrite (iterate_is_list _ _ _ _ (S (length cells)) Hlist'). }
  split.
  { destruct Hlist' as (? & ? & _ & Hs & _). by apply get_size_Some. }
  split; [done|]. by eapply dereference_cell.
Qed.

(** C8: from any memory the initializer-list constructor returns; it pushes
    the values to the front in reverse order, and a range-for over the new
    list visits exactly the values given, in the order given. *)
Theorem SingleLinkedList_init_keeps_order m fuel (values : list Type_) :
  ∃ this m0 m',
    (do this <- allocate_list; do_ Clear fuel this; ret this) m = Done this m0 ∧
    PushFront_each this (rev values) m0 = Done tt m' ∧
    SingleLinkedList_init fuel values m = Done this m' ∧
    iterate (length values) this m' = Done values m' ∧
    GetSize this m' = Done (wrap (Z.of_nat (length values))) m'.
Proof.
  destruct (allocate_list_is_list m) as (m1 & Halloc & Hlist1 & _).
  set (this := fresh_addr m) in *.
  destruct (Clear_is_list m1 this [] 0 fuel Hlist1) as (m2 & Hclear & Hlist2 & _).
  { simpl. lia. }
  destruct (PushFront_each_is_list this (rev values) m2 [] 0 Hlist2)
    as (m3 & cells & Hpush & Hlist3 & Hvals & _).
  rewrite app_nil_r, length_rev, iter_increment_from_zero in Hlist3.
  rewrite rev_involutive in Hvals.
  exists this, m2, m3. split; [|split; [done|split; [|split]]].
  - by rewrite (bind_Done _ _ _ _ _ Halloc), (bind_Done _ _ _ _ _ Hclear).
  - unfold SingleLinkedList_init.
    by rewrite (bind_Done _ _ _ _ _ Halloc), (bind_Done _ _ _ _ _ Hclear),
      (bind_Done _ _ _ _ _ Hpush).
  - rewrite <- Hvals at 2. apply (iterate_is_list _ _ _ _ _ Hlist3).
    rewrite <- Hvals. unfold values_of. by rewrite length_fmap.
  - destruct Hlist3 as (? & ? & _ & Hs & _). by apply get_size_Some.
Qed.

(** C9: on a well-formed list, empty or not, [Clear] returns and leaves the
    sentinel's [next_node] at [nullptr] and [size_] at 0, so that [GetSize]
    answers 0 and [begin()] equals [end()]. *)
Theorem Clear_empties_list m this cells sz fuel :
  is_list m this cells sz → (length cells ≤ fuel)%nat →
  ∃ m' first last,
    Clear fuel this m = Done tt m' ∧
    get_next (Some this) m' = Done None m' ∧
    get_size this m' = Done 0 m' ∧
    GetSize this m' = Done 0 m' ∧
    begin this m' = Done first m' ∧
    end_ this m' = Done last m' ∧
    iterator_eq first last = true.
Proof.
  intros Hlist Hfuel.
  destruct (Clear_is_list m this cells sz fuel Hlist Hfuel) as (m' & Hclear & Hlist' & _).
  destruct Hlist' as (hv & nx & Hn & Hs & Hchain).
  unfold chain in Hchain. simpl in Hchain. subst nx.
  exists m', (Iterator None), (Iterator None).
  split; [done|]. split; [by rewrite (get_next_Some _ _ _ Hn)|].
  split; [by apply get_size_Some|]. split; [by apply get_size_Some|].
  split; [|done]. unfold begin. by rewrite (bind_Done _ _ _ _ _ (get_next_Some _ _ _ Hn)).
Qed.


End Properties.

(** C6: [<=], [>] and [>=] all answer the negation of [lhs < rhs], with the
    operands in the same order; so for the equal lists [{1}] and [{1}],
    [a > b] is [true] while [b < a] is [false]. *)
Theorem derived_orderings_negate_less :
  (∀ (Type_ : Type) (E : ElementType Type_) fuel lhs rhs (m : Memory Type_),
     operator_le fuel lhs rhs m = negated (operator_lt fuel lhs rhs m) ∧
     operator_gt fuel lhs rhs m = negated (operator_lt fuel lhs rhs m) ∧
     operator_ge fuel lhs rhs m = negated (operator_lt fuel lhs rhs m)) ∧
  result (greater_program [1] [1] empty_memory) = Some (true, false).
Proof.
  split; [|vm_compute; reflexivity].
  intros Type_ E fuel lhs rhs m.
  unfold operator_le, operator_gt, operator_ge, bind.
  by destruct (operator_lt fuel lhs rhs m).
Qed.

(** ** The statements above at concrete lists

    [two_lists_memory] holds [{1, 2}] at address 1 and [{1, 2, 3}] at
    address 4. *)

Lemma operator_lt_lexicographic_witness :
  is_list two_lists_memory 1 [(3%positive, 1); (2%positive, 2)] 2 ∧
  is_list two_lists_memory 4 [(7%positive, 1); (6%positive, 2); (5%positive, 3)] 3 ∧
  (2 `min` 3 ≤ 2)%nat ∧
  ∃ b, operator_lt 2 1 4 two_lists_memory = Done b two_lists_memory ∧
       (b = true ↔ lexicographically_less [1; 2] [1; 2; 3]) ∧
       ([(3%positive, 1); (2%positive, 2)] = [] →
        [(7%positive, 1); (6%positive, 2); (5%positive, 3)] ≠ [] → b = true).
Proof.
  assert (H1 : is_list two_lists_memory 1 [(3%positive, 1); (2%positive, 2)] 2)
    by check_is_list 0 (Some 3%positive).
  assert (H2 : is_list two_lists_memory 4
                 [(7%positive, 1); (6%positive, 2); (5%positive, 3)] 3)
    by check_is_list 0 (Some 7%positive).
  assert (H3 : (2 `min` 3 ≤ 2)%nat) by (simpl; lia).
  split; [exact H1|]. split; [exact H2|]. split; [exact H3|].
  exact (operator_lt_lexicographic two_lists_memory 1 4 _ _ 2 3 2%nat H1 H2 H3).
Defined.

Lemma InsertAfter_before_begin_same_as_PushFront_witness :
  is_list two_lists_memory 1 [(3%positive, 1); (2%positive, 2)] 2 ∧
  ∃ pos it m',
    before_begin 1 two_lists_memory = Done pos two_lists_memory ∧
    InsertAfter 1 pos 7 two_lists_memory = Done it m' ∧
    PushFront 1 7 two_lists_memory = Done tt m' ∧
    iterate 3 1 m' = Done [7; 1; 2] m' ∧
    GetSize 1 m' = Done (wrap (2 + 1)) m' ∧
    begin 1 m' = Done it m' ∧
    dereference it m' = Done 7 m'.
Proof.
  assert (H1 : is_list two_lists_memory 1 [(3%positive, 1); (2%positive, 2)] 2)
    by check_is_list 0 (Some 3%positive).
  split; [exact H1|].
  exact (InsertAfter_before_begin_same_as_PushFront two_lists_memory 1 _ 2 7 H1).
Defined.

Lemma Clear_empties_list_witness :
  is_list two_lists_memory 4 [(7%positive, 1); (6%positive, 2); (5%positive, 3)] 3 ∧
  (3 ≤ 3)%nat ∧
  ∃ m' first last,
    Clear 3 4 two_lists_memory = Done tt m' ∧
    get_next (Some 4%positive) m' = Done None m' ∧
    get_size 4 m' = Done 0 m' ∧
    GetSize 4 m' = Done 0 m' ∧
    begin 4 m' = Done first m' ∧
    end_ 4 m' = Done last m' ∧
    iterator_eq first last = true.
Proof.
  assert (H2 : is_list two_lists_memory 4
                 [(7%positive, 1); (6%positive, 2); (5%positive, 3)] 3)
    by check_is_list 0 (Some 7%positive).
  assert (H3 : (3 ≤ 3)%nat) by lia.
  split; [exact H2|]. split; [exact H3|].
  exact (Clear_empties_list two_lists_memory 4 _ 3 3%nat H2 H3).
Defined.



(** ** Further facts: frames, insertion at a position, swap *)

Section Frames.

Context {Type_ : Type} `{ElementType Type_}.

Implicit Types (m : Memory Type_) (p q : option addr) (a this : positive)
  (cells : list (positive * Type_)).

(** A list only depends on the memory at its object and at its nodes. *)
Lemma is_list_frame m m' this cells sz :
  is_list m this cells sz →
  nodes m' !! this = nodes m !! this →
  sizes m' !! this = sizes m !! this →
  (∀ a, a ∈ cells.*1 →
        nodes m' !! a = nodes m !! a ∧ sizes m' !! a = sizes m !! a) →
  is_list m' this cells sz.
Proof.
  intros (hv & nx & Hn & Hs & Hchain) Hn' Hs' Hcells.
  exists hv, nx. split; [congruence|]. split; [congruence|].
  by eapply segment_frame.
Qed.

Lemma is_list_cells_on_heap m this cells sz a :
  is_list m this cells sz → a ∈ cells.*1 →
  a ≠ this ∧ sizes m !! a = None ∧ is_Some (nodes m !! a).
Proof.
  intros Hlist Hin. pose proof (is_list_sentinel_not_cell _ _ _ _ Hlist) as Hthis.
  destruct Hlist as (hv & nx & Hn & Hs & Hchain).
  destruct (segment_cells_on_heap _ _ _ _ _ Hchain Hin). split; [|done].
  by intros ->.
Qed.

Lemma values_of_app cells1 cells2 :
  values_of (cells1 ++ cells2) = values_of cells1 ++ values_of cells2.
Proof. unfold values_of. apply fmap_app. Qed.

Lemma values_of_length cells : length (values_of cells) = length cells.
Proof. unfold values_of. apply length_fmap. Qed.

Lemma values_of_lookup cells (i : nat) :
  values_of cells !! i = snd <$> cells !! i.
Proof. unfold values_of. apply list_lookup_fmap. Qed.

(** [InsertAfter] on a well-formed list, at the sentinel ([before = []]) or
    at the last node of [before]. *)
Lemma InsertAfter_is_list m this before after sz x :
  is_list m this (before ++ after) sz →
  ∃ m', InsertAfter this (Iterator (Some (default this (last before.*1)))) x m
        = Done (Iterator (Some (fresh_addr m))) m' ∧
        is_list m' this (before ++ (fresh_addr m, x) :: after) (wrap (sz + 1)) ∧
        (∀ b, is_Some (nodes m !! b) → b ∉ this :: before.*1 →
              nodes m' !! b = nodes m !! b) ∧
        (∀ b, b ≠ this → sizes m' !! b = sizes m !! b).
Proof.
  intros Hlist.
  pose proof (fresh_addr_nodes m) as Hfn. pose proof (fresh_addr_sizes m) as Hfs.
  set (f := fresh_addr m) in *.
  assert (Hcells : ∀ a, a ∈ (before ++ after).*1 → a ≠ this ∧ a ≠ f).
  { intros a Ha. destruct (is_list_cells_on_heap _ _ _ _ _ Hlist Ha) as (? & _ & [? ?]).
    split; [done|congruence]. }
  destruct Hlist as (hv & hnx & Hn & Hs & Hchain).
  assert (f ≠ this) by congruence.
  pose proof (chain_NoDup _ _ _ Hchain) as Hnodup.
  destruct before as [|[b w] before' _] using rev_ind.
  - simpl in *.
    set (m1 := {| nodes := <[f := {| value := x; next_node := hnx |}]> (nodes m);
                  sizes := sizes m |}).
    assert (Hn1 : nodes m1 !! this = Some {| value := hv; next_node := hnx |})
      by (simpl; by rewrite lookup_insert_ne).
    eexists. split; [|subst m1; split; [|split]].
    + unfold InsertAfter. simpl.
      rewrite (bind_Done _ _ _ _ _ (get_next_Some _ _ _ Hn)). simpl.
      unfold new_Node at 1. unfold bind at 1. fold f. fold m1.
      rewrite (bind_Done _ _ _ _ _ (set_next_Some _ _ _ (Some f) Hn1)). simpl.
      rewrite (bind_Done _ _ _ _ _
        (increment_size_Some {| nodes := _; sizes := sizes m |} this sz Hs)).
      reflexivity.
    + exists hv, (Some f). unfold chain. simpl. rewrite !lookup_insert_eq.
      split; [done|]. split; [done|]. split; [done|].
      split; [by rewrite lookup_insert_ne|].
      exists hnx. split; [rewrite lookup_insert_ne; [by rewrite lookup_insert_eq|done]|].
      eapply segment_frame; [|exact Hchain]. simpl. intros d Hd.
      destruct (Hcells d Hd). by rewrite !lookup_insert_ne.
    + intros d [n Hd] Hnotin. simpl.
      assert (d ≠ this) by (intros ->; apply Hnotin, elem_of_cons; by left).
      assert (d ≠ f) by congruence. by rewrite !lookup_insert_ne.
    + intros d Hd. simpl. by rewrite lookup_insert_ne.
  - rewrite fmap_app. change ([(b, w)].*1) with [b]. rewrite last_snoc. simpl.
    rewrite <- app_assoc in Hchain, Hnodup, Hcells. simpl in Hchain, Hnodup, Hcells.
    pose proof Hchain as Hsplit. apply segment_app in Hsplit as (r & Hbefore & Htail).
    destruct Htail as (-> & Hbs & nx & Hbn & Hafter).
    rewrite fmap_app in Hnodup. simpl in Hnodup.
    apply NoDup_app in Hnodup as (_ & Hdisjoint & Htailnodup).
    apply NoDup_cons in Htailnodup as [Hb_notin _].
    assert (Hb : b ≠ this ∧ b ≠ f).
    { apply Hcells. rewrite fmap_app. apply elem_of_app. right. apply elem_of_cons. by left. }
    destruct Hb as [Hbthis Hbf].
    set (m1 := {| nodes := <[f := {| value := x; next_node := nx |}]> (nodes m);
                  sizes := sizes m |}).
    assert (Hb1 : nodes m1 !! b = Some {| value := w; next_node := nx |})
      by (simpl; by rewrite lookup_insert_ne).
    eexists. split; [|subst m1; split; [|split]].
    + unfold InsertAfter. simpl.
      rewrite (bind_Done _ _ _ _ _ (get_next_Some _ _ _ Hbn)). simpl.
      unfold new_Node at 1. unfold bind at 1. fold f. fold m1.
      rewrite (bind_Done _ _ _ _ _ (set_next_Some _ _ _ (Some f) Hb1)). simpl.
      rewrite (bind_Done _ _ _ _ _
        (increment_size_Some {| nodes := _; sizes := sizes m |} this sz Hs)).
      reflexivity.
    + exists hv, hnx. unfold chain. simpl. rewrite lookup_insert_eq.
      split; [by rewrite !lookup_insert_ne|]. split; [done|].
      rewrite <- app_assoc. apply segment_app. exists (Some b). split.
      * eapply segment_frame; [|exact Hbefore]. simpl. intros d Hd.
        assert (d ≠ b) by (intros ->; apply (Hdisjoint b Hd), elem_of_cons; by left).
        destruct (Hcells d) as [? ?].
        { rewrite fmap_app. apply elem_of_app. by left. }
        by rewrite !lookup_insert_ne.
      * simpl. split; [done|]. split; [by rewrite lookup_insert_ne|].
        exists (Some f). split; [by rewrite lookup_insert_eq|].
        split; [done|]. split; [by rewrite lookup_insert_ne|].
        exists nx. split; [rewrite lookup_insert_ne; [by rewrite lookup_insert_eq|done]|].
        eapply segment_frame; [|exact Hafter]. simpl. intros d Hd.
        assert (d ≠ b) by (intros ->; done).
        destruct (Hcells d) as [? ?].
        { rewrite fmap_app. apply elem_of_app. right. apply elem_of_cons. by right. }
        by rewrite !lookup_insert_ne.
    + intros d [n Hd] Hnotin. simpl.
      assert (d ≠ b).
      { intros ->. apply Hnotin. apply elem_of_cons. right.
        apply elem_of_app. right. apply elem_of_cons. by left. }
      assert (d ≠ f) by congruence. by rewrite !lookup_insert_ne.
    + intros d Hd. simpl. by rewrite lookup_insert_ne.
Qed.

(** [EraseAfter] at the last position of a list (the sentinel of an empty
    list, the last node otherwise) reads [next_node] through a null
    pointer. *)
Lemma EraseAfter_last_position m this cells sz :
  is_list m this cells sz →
  EraseAfter this (Iterator (Some (default this (last cells.*1)))) m = Undefined.
Proof.
  intros (hv & hnx & Hn & Hs & Hchain).
  destruct cells as [|[b w] before' _] using rev_ind.
  - unfold chain in Hchain. simpl in *. subst hnx.
    unfold EraseAfter. simpl.
    by rewrite (bind_Done _ _ _ _ _ (get_next_Some _ _ _ Hn)).
  - rewrite fmap_app. change ([(b, w)].*1) with [b]. rewrite last_snoc. simpl.
    apply segment_app in Hchain as (r & _ & (-> & _ & nx & Hbn & Hnx)).
    simpl in Hnx. subst nx.
    unfold EraseAfter. simpl.
    by rewrite (bind_Done _ _ _ _ _ (get_next_Some _ _ _ Hbn)).
Qed.

(** [swap] exchanges the chains and the sizes of two well-formed lists (which
    may be one and the same list) by rewriting the two objects only: no node
    is made, deleted or changed. *)
Lemma swap_is_list m this other cells1 cells2 sz1 sz2 :
  is_list m this cells1 sz1 → is_list m other cells2 sz2 →
  ∃ m', swap this other m = Done tt m' ∧
        is_list m' this cells2 sz2 ∧
        is_list m' other cells1 sz1 ∧
        (∀ b, b ≠ this → b ≠ other → nodes m' !! b = nodes m !! b) ∧
        (∀ b, b ≠ this → b ≠ other → sizes m' !! b = sizes m !! b) ∧
        dom (nodes m') = dom (nodes m).
Proof.
  intros H1 H2.
  assert (Hc1 : ∀ a, a ∈ cells1.*1 → a ≠ this ∧ a ≠ other).
  { intros a Ha. destruct (is_list_cells_on_heap _ _ _ _ _ H1 Ha) as (? & Hs & _).
    split; [done|]. destruct H2 as (? & ? & _ & ? & _). congruence. }
  assert (Hc2 : ∀ a, a ∈ cells2.*1 → a ≠ this ∧ a ≠ other).
  { intros a Ha. destruct (is_list_cells_on_heap _ _ _ _ _ H2 Ha) as (? & Hs & _).
    split; [|done]. destruct H1 as (? & ? & _ & ? & _). congruence. }
  destruct H1 as (hv1 & nx1 & Hn1 & Hs1 & Hchain1).
  destruct H2 as (hv2 & nx2 & Hn2 & Hs2 & Hchain2).
  assert (Hframe : ∀ m' cells p,
    (∀ a, a ∈ cells.*1 → a ≠ this ∧ a ≠ other) →
    (∀ b, b ≠ this → b ≠ other → nodes m' !! b = nodes m !! b) →
    (∀ b, b ≠ this → b ≠ other → sizes m' !! b = sizes m !! b) →
    chain m p cells → chain m' p cells).
  { intros m' cells p Hc Hn Hs Hchain. eapply segment_frame; [|exact Hchain].
    intros a Ha. destruct (Hc a Ha). split; [by apply Hn|by apply Hs]. }
  destruct (decide (this = other)) as [<-|Hne].
  - assert (hv2 = hv1 ∧ nx2 = nx1 ∧ sz2 = sz1) as (-> & -> & ->)
      by (split; [|split]; congruence).
    pose proof (chain_unique _ _ _ _ Hchain1 Hchain2) as <-.
    eexists. split; [unfold swap; run_accesses; reflexivity|].
    simpl.
    assert (Hnodes : ∀ b, b ≠ this → b ≠ this →
      (<[this := {| value := hv1; next_node := nx1 |}]>
         (<[this := {| value := hv1; next_node := nx1 |}]> (nodes m))) !! b
      = nodes m !! b) by (intros b ? _; by rewrite !lookup_insert_ne).
    assert (Hsizes : ∀ b, b ≠ this → b ≠ this →
      (<[this := sz1]> (<[this := sz1]> (sizes m))) !! b = sizes m !! b)
      by (intros b ? _; by rewrite !lookup_insert_ne).
    split; [|split; [|split; [|split]]].
    + exists hv1, nx1. simpl. rewrite !lookup_insert_eq.
      split; [done|]. split; [done|]. by eapply Hframe.
    + exists hv1, nx1. simpl. rewrite !lookup_insert_eq.
      split; [done|]. split; [done|]. by eapply Hframe.
    + exact Hnodes.
    + exact Hsizes.
    + rewrite dom_insert_lookup_L by (rewrite lookup_insert_eq; eauto).
      rewrite dom_insert_lookup_L by eauto. done.
  - assert (Hne' : other ≠ this) by done.
    eexists. split; [unfold swap; run_accesses; reflexivity|].
    simpl.
    assert (Hnodes : ∀ b, b ≠ this → b ≠ other →
      (<[this := {| value := hv1; next_node := nx2 |}]>
         (<[other := {| value := hv2; next_node := nx1 |}]> (nodes m))) !! b
      = nodes m !! b) by (intros b ? ?; by rewrite !lookup_insert_ne).
    assert (Hsizes : ∀ b, b ≠ this → b ≠ other →
      (<[this := sz2]> (<[other := sz1]> (sizes m))) !! b = sizes m !! b)
      by (intros b ? ?; by rewrite !lookup_insert_ne).
    split; [|split; [|split; [|split]]].
    + exists hv1, nx2. simpl. rewrite !lookup_insert_eq.
      split; [done|]. split; [done|]. by eapply Hframe.
    + exists hv2, nx1. simpl.
      rewrite (lookup_insert_ne _ this other) by done.
      rewrite (lookup_insert_ne _ this other) by done.
      rewrite !lookup_insert_eq.
      split; [done|]. split; [done|]. by eapply Hframe.
    + exact Hnodes.
    + exact Hsizes.
    + rewrite dom_insert_lookup_L by (rewrite lookup_insert_ne by done; eauto).
      rewrite dom_insert_lookup_L by eauto. done.
Qed.

End Frames.

(** ** Further facts: destruction, copy and assignment *)

Section Copying.

Context {Type_ : Type} `{ElementType Type_}.

Implicit Types (m : Memory Type_) (p q : option addr) (a this : positive)
  (cells : list (positive * Type_)).

(** The destructor deletes every node of the list and the object itself,
    and nothing else. *)
Lemma destroy_is_list m this cells sz fuel :
  is_list m this cells sz → (length cells ≤ fuel)%nat →
  ∃ m', destroy fuel this m = Done tt m' ∧
        nodes m' !! this = None ∧ sizes m' !! this = None ∧
        (∀ b, b ∈ cells.*1 → nodes m' !! b = None) ∧
        (∀ b, b ≠ this → b ∉ cells.*1 → nodes m' !! b = nodes m !! b) ∧
        (∀ b, b ≠ this → sizes m' !! b = sizes m !! b).
Proof.
  intros Hlist Hfuel.
  pose proof (is_list_sentinel_not_cell _ _ _ _ Hlist) as Hthis.
  destruct (Clear_is_list m this cells sz fuel Hlist Hfuel)
    as (m1 & Hclear & _ & Hgone & Hkept & Hsizes).
  eexists. split.
  { unfold destroy. rewrite (bind_Done _ _ _ _ _ Hclear). reflexivity. }
  simpl. rewrite !lookup_delete_eq. split; [done|]. split; [done|]. split; [|split].
  - intros b Hb. rewrite lookup_delete_ne; [by apply Hgone|]. by intros <-.
  - intros b ? ?. rewrite lookup_delete_ne by done. by apply Hkept.
  - intros b ?. rewrite lookup_delete_ne by done. by apply Hsizes.
Qed.

(** The loop of the copy constructor appends to the node [pa] one new node
    per node of the source chain, with the same values in the same order,
    and touches nothing else. *)
Lemma copy_loop_chain cells : ∀ fuel m pa pv p,
  nodes m !! pa = Some {| value := pv; next_node := None |} →
  sizes m !! pa = None →
  chain m p cells → pa ∉ cells.*1 → (length cells ≤ fuel)%nat →
  ∃ m' copies,
    copy_loop fuel (Some pa) p m = Done tt m' ∧
    chain m' (Some pa) ((pa, pv) :: copies) ∧
    values_of copies = values_of cells ∧
    sizes m' = sizes m ∧
    (∀ b, b ∈ copies.*1 → nodes m !! b = None) ∧
    (∀ b, b ≠ pa → b ∉ copies.*1 → nodes m' !! b = nodes m !! b).
Proof.
  induction cells as [|[a v] rest IH];
    intros fuel m pa pv p Hpa Hpas Hchain Hnotin Hfuel.
  - unfold chain in Hchain. simpl in Hchain. subst p. exists m, [].
    split; [by destruct fuel|]. split.
    { split; [done|]. split; [done|]. by exists None. }
    split; [done|]. split; [done|]. split; [by intros b ?%elem_of_nil|done].
  - pose proof Hchain as (-> & Has & nx & Han & Hrest).
    destruct fuel as [|fuel]; [simpl in Hfuel; lia|].
    pose proof (fresh_addr_nodes m) as Hfn. pose proof (fresh_addr_sizes m) as Hfs.
    set (f := fresh_addr m) in *.
    assert (Hapa : a ≠ pa) by (intros ->; apply Hnotin, elem_of_cons; by left).
    assert (Hfpa : f ≠ pa) by congruence. assert (Hfa : f ≠ a) by congruence.
    set (m1 := {| nodes := <[f := {| value := v; next_node := None |}]> (nodes m);
                  sizes := sizes m |}).
    set (m2 := {| nodes := <[pa := {| value := pv; next_node := Some f |}]> (nodes m1);
                  sizes := sizes m |}).
    assert (Hpa1 : nodes m1 !! pa = Some {| value := pv; next_node := None |})
      by (simpl; by rewrite lookup_insert_ne).
    assert (Han2 : nodes m2 !! a = Some {| value := v; next_node := nx |})
      by (simpl; by rewrite !lookup_insert_ne).
    assert (Hstep : copy_loop (S fuel) (Some pa) (Some a) m
                    = copy_loop fuel (Some f) nx m2).
    { simpl. rewrite (bind_Done _ _ _ _ _ (get_value_Some _ _ _ Han)). simpl.
      unfold new_Node at 1. unfold bind at 1. fold f. fold m1.
      rewrite (bind_Done _ _ _ _ _ (set_next_Some _ _ _ (Some f) Hpa1)). simpl. fold m2.
      by rewrite (bind_Done _ _ _ _ _ (get_next_Some _ _ _ Han2)). }
    assert (Hrest2 : chain m2 nx rest).
    { eapply segment_frame; [|exact Hrest]. simpl. intros d Hd.
      destruct (segment_cells_on_heap _ _ _ _ _ Hrest Hd) as [_ [nd Hnd]].
      assert (d ≠ pa) by (intros ->; apply Hnotin, elem_of_cons; by right).
      assert (d ≠ f) by congruence. by rewrite !lookup_insert_ne. }
    assert (Hfrest : f ∉ rest.*1).
    { intros Hin. destruct (segment_cells_on_heap _ _ _ _ _ Hrest Hin) as [_ [? ?]].
      congruence. }
    destruct (IH fuel m2 f v nx) as (m' & copies & Hrun & Hcopies & Hvals & Hsz & Hnew & Hkept).
    { simpl. rewrite lookup_insert_ne by done. by rewrite lookup_insert_eq. }
    { done. }
    { done. }
    { done. }
    { simpl in Hfuel. lia. }
    assert (Hpa_copies : pa ∉ copies.*1).
    { intros Hin. specialize (Hnew pa Hin). simpl in Hnew.
      by rewrite lookup_insert_eq in Hnew. }
    exists m', ((f, v) :: copies). split; [by rewrite Hstep|].
    split; [|split; [|split; [|split]]].
    + split; [done|]. split; [by rewrite Hsz|].
      exists (Some f). split; [|done].
      rewrite (Hkept pa); [|done..]. simpl. by rewrite lookup_insert_eq.
    + unfold values_of in *. rewrite !fmap_cons. simpl. by rewrite Hvals.
    + done.
    + intros b [->|Hb]%elem_of_cons; [done|].
      specialize (Hnew b Hb). simpl in Hnew.
      destruct (decide (b = pa)) as [->|?]; [by rewrite lookup_insert_eq in Hnew|].
      rewrite lookup_insert_ne in Hnew by done.
      destruct (decide (b = f)) as [->|?]; [done|].
      by rewrite lookup_insert_ne in Hnew.
    + intros b Hbpa Hb. apply not_elem_of_cons in Hb as [Hbf Hb].
      rewrite (Hkept b Hbf Hb). simpl. by rewrite !lookup_insert_ne.
Qed.

(** Destroying the temporary of the copy constructor, which by then holds
    an empty chain, leaves the new list as it is. *)
Lemma destroy_temporary m this tmp copies sz fuel :
  is_list m this copies sz → is_list m tmp [] 0 → this ≠ tmp →
  ∃ m', destroy fuel tmp m = Done tt m' ∧
        is_list m' this copies sz ∧
        nodes m' !! tmp = None ∧ sizes m' !! tmp = None ∧
        (∀ b, b ≠ tmp → nodes m' !! b = nodes m !! b) ∧
        (∀ b, b ≠ tmp → sizes m' !! b = sizes m !! b).
Proof.
  intros Hthis Htmp Hne.
  destruct (destroy_is_list m tmp [] 0 fuel Htmp) as (m' & Hrun & Hn & Hs & _ & Hkept & Hsizes).
  { simpl. lia. }
  assert (Hkept' : ∀ b, b ≠ tmp → nodes m' !! b = nodes m !! b).
  { intros b Hb. apply Hkept; [done|]. by intros ?%elem_of_nil. }
  exists m'. split; [done|]. split; [|done].
  eapply is_list_frame; [exact Hthis|by apply Hkept'|by apply Hsizes|].
  intros b Hb. destruct (is_list_cells_on_heap _ _ _ _ _ Hthis Hb) as (_ & Hbs & _).
  assert (b ≠ tmp).
  { intros ->. destruct Htmp as (? & ? & _ & ? & _). congruence. }
  split; [by apply Hkept'|by apply Hsizes].
Qed.

(** The copy constructor builds, at a fresh address, a list of new nodes
    carrying the values of [other] in the same order.  [size_] is copied
    from [other] when [other] has a first node and is 0 otherwise.  The
    source list, and every other address in use, is left as it was, and the
    temporary is gone. *)
Lemma SingleLinkedList_copy_is_list m other cells sz fuel :
  is_list m other cells sz → (length cells ≤ fuel)%nat →
  ∃ m' copies,
    SingleLinkedList_copy fuel other m = Done (fresh_addr m) m' ∧
    is_list m' (fresh_addr m) copies (match cells with [] => 0 | _ => sz end) ∧
    values_of copies = values_of cells ∧
    is_list m' other cells sz ∧
    (∀ b, b ∈ copies.*1 → nodes m !! b = None) ∧
    (∀ b, b ≠ fresh_addr m → b ∉ copies.*1 → nodes m' !! b = nodes m !! b) ∧
    (∀ b, b ≠ fresh_addr m → sizes m' !! b = sizes m !! b).
Proof.
  intros Hother Hfuel.
  destruct (allocate_list_is_list m) as (m1 & Halloc1 & Hthis1 & Hn1 & Hs1).
  pose proof (fresh_addr_nodes m) as Hthis_new.
  pose proof (fresh_addr_sizes m) as Hthis_news.
  set (this := fresh_addr m) in *.
  destruct (allocate_list_is_list m1) as (m2 & Halloc2 & Htmp2 & Hn2 & Hs2).
  pose proof (fresh_addr_nodes m1) as Htmp_new1.
  pose proof (fresh_addr_sizes m1) as Htmp_news1.
  set (tmp := fresh_addr m1) in *.
  assert (Htt : this ≠ tmp).
  { intros Heq. destruct Hthis1 as (? & ? & Hn & _). rewrite Heq in Hn. congruence. }
  assert (Htmp_new : nodes m !! tmp = None) by (rewrite <- Hn1; done).
  assert (Htmp_news : sizes m !! tmp = None) by (rewrite <- Hs1; done).
  assert (Hold : ∀ b, is_Some (nodes m !! b) → b ≠ this ∧ b ≠ tmp).
  { intros b [n Hb]. split; intros ->; congruence. }
  assert (Hnodes2 : ∀ b, b ≠ this → b ≠ tmp → nodes m2 !! b = nodes m !! b).
  { intros b ? ?. rewrite Hn2, Hn1; done. }
  assert (Hsizes2 : ∀ b, b ≠ this → b ≠ tmp → sizes m2 !! b = sizes m !! b).
  { intros b ? ?. rewrite Hs2, Hs1; done. }
  assert (Hthis2 : is_list m2 this [] 0).
  { eapply is_list_frame; [exact Hthis1|by apply Hn2|by apply Hs2|].
    by intros ? ?%elem_of_nil. }
  assert (Hcells_old : ∀ b, b ∈ cells.*1 → is_Some (nodes m !! b)).
  { intros b Hb. by destruct (is_list_cells_on_heap _ _ _ _ _ Hother Hb) as (_ & _ & ?). }
  assert (Hother_old : is_Some (nodes m !! other)).
  { destruct Hother as (? & ? & ? & _). eauto. }
  destruct (Hold other Hother_old) as [Hother_this Hother_tmp].
  assert (Hother2 : is_list m2 other cells sz).
  { eapply is_list_frame; [exact Hother|by apply Hnodes2|by apply Hsizes2|].
    intros b Hb. destruct (Hold b (Hcells_old b Hb)).
    split; [by apply Hnodes2|by apply Hsizes2]. }
  (* the part shared by the two branches: what is left once the temporary is
     destroyed *)
  assert (Hfinish : ∀ m7 copies sz',
    is_list m7 this copies sz' → is_list m7 tmp [] 0 →
    (∀ b, b ∈ copies.*1 → nodes m2 !! b = None) →
    (∀ b, b ≠ this → b ≠ tmp → b ∉ copies.*1 → nodes m7 !! b = nodes m2 !! b) →
    (∀ b, b ≠ this → b ≠ tmp → sizes m7 !! b = sizes m2 !! b) →
    ∃ m', destroy fuel tmp m7 = Done tt m' ∧
          is_list m' this copies sz' ∧
          is_list m' other cells sz ∧
          (∀ b, b ∈ copies.*1 → nodes m !! b = None) ∧
          (∀ b, b ≠ this → b ∉ copies.*1 → nodes m' !! b = nodes m !! b) ∧
          (∀ b, b ≠ this → sizes m' !! b = sizes m !! b)).
  { intros m7 copies sz' Hthis7 Htmp7 Hnew Hkept Hsizes.
    destruct (destroy_temporary m7 this tmp copies sz' fuel Hthis7 Htmp7 Htt)
      as (m' & Hrun & Hthis' & Hgone & Hgones & Hkept' & Hsizes').
    assert (Hnew' : ∀ b, b ∈ copies.*1 → nodes m !! b = None).
    { intros b Hb. specialize (Hnew b Hb).
      destruct (is_list_cells_on_heap _ _ _ _ _ Hthis7 Hb) as (Hbthis & Hbs & _).
      assert (b ≠ tmp).
      { intros ->. destruct Htmp7 as (? & ? & _ & ? & _). congruence. }
      by rewrite <- Hnodes2. }
    assert (Hnodes' : ∀ b, b ≠ this → b ∉ copies.*1 → nodes m' !! b = nodes m !! b).
    { intros b Hb Hnotin. destruct (decide (b = tmp)) as [->|Hbtmp]; [congruence|].
      rewrite Hkept', Hkept, Hnodes2; done. }
    assert (Hsizes'' : ∀ b, b ≠ this → sizes m' !! b = sizes m !! b).
    { intros b Hb. destruct (decide (b = tmp)) as [->|Hbtmp]; [congruence|].
      rewrite Hsizes', Hsizes, Hsizes2; done. }
    assert (Hold_copies : ∀ b, is_Some (nodes m !! b) → b ∉ copies.*1).
    { intros b [n Hb] Hin. rewrite (Hnew' b Hin) in Hb. done. }
    exists m'. split; [done|]. split; [done|]. split; [|done].
    eapply is_list_frame; [exact Hother| | |].
    - apply Hnodes'; [done|]. by apply Hold_copies.
    - by apply Hsizes''.
    - intros b Hb. pose proof (Hcells_old b Hb) as Hb_old.
      destruct (Hold b Hb_old). split; [|by apply Hsizes''].
      apply Hnodes'; [done|]. by apply Hold_copies. }
  pose proof Hother2 as (hv & hnx & Hno & Hso & Hchain).
  destruct cells as [|[a v] rest].
  - (* the source has no node: only the swap runs *)
    unfold chain in Hchain. simpl in Hchain. subst hnx.
    destruct (swap_is_list m2 this tmp [] [] 0 0 Hthis2 Htmp2)
      as (m3 & Hswap & Hthis3 & Htmp3 & Hnodes3 & Hsizes3 & _).
    destruct (Hfinish m3 [] 0 Hthis3 Htmp3) as (m' & Hdestroy & Hthis' & Hother' & Hrest').
    { by intros ? ?%elem_of_nil. }
    { intros b ? ? _. by apply Hnodes3. }
    { done. }
    exists m', []. split; [|done].
    unfold SingleLinkedList_copy.
    rewrite (bind_Done _ _ _ _ _ Halloc1). unfold SingleLinkedList_default.
    rewrite (bind_Done _ _ _ _ _ Halloc2).
    rewrite (bind_Done _ _ _ _ _ (get_next_Some _ _ _ Hno)). simpl.
    rewrite (bind_Done _ _ _ _ _ Hswap), (bind_Done _ _ _ _ _ Hdestroy). reflexivity.
  - (* the source has a first node *)
    pose proof Hchain as (-> & Has & nx & Han & Hrest).
    pose proof (fresh_addr_nodes m2) as Hfn. pose proof (fresh_addr_sizes m2) as Hfs.
    set (f := fresh_addr m2) in *.
    destruct Htmp2 as (tv & tnx & Htmpn & Htmps & Htmpc).
    unfold chain in Htmpc. simpl in Htmpc. subst tnx.
    destruct Hthis2 as (thv & thnx & Hthisn & Hthiss & Hthisc).
    unfold chain in Hthisc. simpl in Hthisc. subst thnx.
    assert (Hf_tmp : f ≠ tmp) by congruence.
    assert (Hf_this : f ≠ this) by congruence.
    assert (Hf_a : f ≠ a) by congruence.
    assert (Ha_tmp : a ≠ tmp) by congruence.
    set (m3 := {| nodes := <[f := {| value := v; next_node := None |}]> (nodes m2);
                  sizes := sizes m2 |}).
    set (m4 := {| nodes := <[tmp := {| value := tv; next_node := Some f |}]> (nodes m3);
                  sizes := sizes m2 |}).
    assert (Htmp3 : nodes m3 !! tmp = Some {| value := tv; next_node := None |})
      by (simpl; by rewrite lookup_insert_ne).
    assert (Han4 : nodes m4 !! a = Some {| value := v; next_node := nx |})
      by (simpl; by rewrite !lookup_insert_ne).
    assert (Hrest4 : chain m4 nx rest).
    { eapply segment_frame; [|exact Hrest]. simpl. intros d Hd.
      destruct (segment_cells_on_heap _ _ _ _ _ Hrest Hd) as [Hds [nd Hnd]].
      assert (d ≠ tmp) by congruence. assert (d ≠ f) by congruence.
      by rewrite !lookup_insert_ne. }
    assert (Hf_rest : f ∉ rest.*1).
    { intros Hin. destruct (segment_cells_on_heap _ _ _ _ _ Hrest Hin) as [_ [? ?]].
      congruence. }
    destruct (copy_loop_chain rest fuel m4 f v nx)
      as (m5 & copies & Hloop & Hcopies & Hvals & Hsz5 & Hnew5 & Hkept5).
    { simpl. rewrite lookup_insert_ne by done. by rewrite lookup_insert_eq. }
    { done. }
    { done. }
    { done. }
    { simpl in Hfuel. lia. }
    assert (Hin4 : ∀ b, is_Some (nodes m4 !! b) → b ∉ copies.*1).
    { intros b [n Hb] Hin. rewrite (Hnew5 b Hin) in Hb. done. }
    assert (Htmp_copies : tmp ∉ copies.*1).
    { apply Hin4. simpl. rewrite lookup_insert_eq. eauto. }
    assert (Hthis_copies : this ∉ copies.*1).
    { apply Hin4. simpl. rewrite !lookup_insert_ne by done. eauto. }
    assert (Hso5 : sizes m5 !! other = Some sz) by (by rewrite Hsz5).
    assert (Htmps5 : sizes m5 !! tmp = Some 0) by (by rewrite Hsz5).
    set (m6 := {| nodes := nodes m5; sizes := <[tmp := sz]> (sizes m5) |}).
    assert (Hset6 : set_size tmp sz m5 = Done tt m6) by (by apply set_size_Some with 0).
    assert (Hthis6 : is_list m6 this [] 0).
    { exists thv, None. simpl. split; [|split; [|done]].
      - rewrite Hkept5; [|done..]. simpl. by rewrite !lookup_insert_ne.
      - rewrite lookup_insert_ne by done. by rewrite Hsz5. }
    assert (Htmp6 : is_list m6 tmp ((f, v) :: copies) sz).
    { exists tv, (Some f). simpl. split; [|split].
      - rewrite Hkept5; [|done..]. simpl. by rewrite lookup_insert_eq.
      - by rewrite lookup_insert_eq.
      - eapply segment_frame; [|exact Hcopies]. simpl. intros d Hd.
        split; [done|]. rewrite lookup_insert_ne; [done|].
        intros <-. apply elem_of_cons in Hd as [?|?]; done. }
    destruct (swap_is_list m6 this tmp [] ((f, v) :: copies) 0 sz Hthis6 Htmp6)
      as (m7 & Hswap & Hthis7 & Htmp7 & Hnodes7 & Hsizes7 & _).
    destruct (Hfinish m7 ((f, v) :: copies) sz Hthis7 Htmp7)
      as (m' & Hdestroy & Hthis' & Hother' & Hrest').
    { intros b [->|Hb]%elem_of_cons; [done|].
      specialize (Hnew5 b Hb). simpl in Hnew5.
      destruct (decide (b = tmp)) as [->|?]; [done|].
      rewrite lookup_insert_ne in Hnew5 by done.
      destruct (decide (b = f)) as [->|?]; [done|].
      by rewrite lookup_insert_ne in Hnew5. }
    { intros b ? ? Hb. apply not_elem_of_cons in Hb as [Hbf Hb].
      rewrite Hnodes7 by done. simpl. rewrite Hkept5 by done. simpl.
      by rewrite !lookup_insert_ne. }
    { intros b ? ?. rewrite Hsizes7 by done. simpl.
      rewrite lookup_insert_ne by done. by rewrite Hsz5. }
    exists m', ((f, v) :: copies). split; [|split; [done|split; [|done]]].
    + unfold SingleLinkedList_copy.
      rewrite (bind_Done _ _ _ _ _ Halloc1). unfold SingleLinkedList_default.
      rewrite (bind_Done _ _ _ _ _ Halloc2).
      rewrite (bind_Done _ _ _ _ _ (get_next_Some _ _ _ Hno)). simpl.
      assert (Hbody :
        (do val <- get_value (Some a);
         do first_node <- new_Node val None;
         do_ set_next (Some tmp) first_node;
         do other_next_node' <- get_next (Some a);
         do_ copy_loop fuel first_node other_next_node';
         do other_size <- get_size other;
         do_ set_size tmp other_size;
         swap this tmp) m2 = Done tt m7).
      { rewrite (bind_Done _ _ _ _ _ (get_value_Some _ _ _ Han)). simpl.
        unfold new_Node at 1. unfold bind at 1. fold f. fold m3.
        rewrite (bind_Done _ _ _ _ _ (set_next_Some _ _ _ (Some f) Htmp3)). simpl. fold m4.
        rewrite (bind_Done _ _ _ _ _ (get_next_Some _ _ _ Han4)). simpl.
        rewrite (bind_Done _ _ _ _ _ Hloop).
        rewrite (bind_Done _ _ _ _ _ (get_size_Some _ _ _ Hso5)).
        rewrite (bind_Done _ _ _ _ _ Hset6). exact Hswap. }
      erewrite bind_Done; [|exact Hbody].
      rewrite (bind_Done _ _ _ _ _ Hdestroy). reflexivity.
    + unfold values_of in *. rewrite !fmap_cons. simpl. by rewrite Hvals.
Qed.

(** Assignment between two different well-formed lists that share no node:
    the left list ends up with new nodes carrying the values of the right
    one, its old nodes are deleted, and the right list is left as it was. *)
Lemma assign_is_list m this rhs cells1 cells2 sz1 sz2 fuel :
  is_list m this cells1 sz1 → is_list m rhs cells2 sz2 → this ≠ rhs →
  (∀ b, b ∈ cells1.*1 → b ∉ cells2.*1) →
  (length cells1 ≤ fuel)%nat → (length cells2 ≤ fuel)%nat →
  ∃ m' copies,
    assign fuel this rhs m = Done tt m' ∧
    is_list m' this copies (match cells2 with [] => 0 | _ => sz2 end) ∧
    values_of copies = values_of cells2 ∧
    is_list m' rhs cells2 sz2 ∧
    (∀ b, b ∈ cells1.*1 → nodes m' !! b = None) ∧
    (∀ b, b ∈ copies.*1 → nodes m !! b = None) ∧
    (∀ b, b ≠ this → b ∉ cells1.*1 → b ∉ copies.*1 → nodes m' !! b = nodes m !! b) ∧
    (∀ b, b ≠ this → sizes m' !! b = sizes m !! b).
Proof.
  intros Hthis Hrhs Hne Hdisjoint Hfuel1 Hfuel2.
  destruct (SingleLinkedList_copy_is_list m rhs cells2 sz2 fuel Hrhs Hfuel2)
    as (m1 & copies & Hcopy & Htmp1 & Hvals & Hrhs1 & Hnew & Hnodes1 & Hsizes1).
  pose proof (fresh_addr_nodes m) as Htmp_new.
  pose proof (fresh_addr_sizes m) as Htmp_news.
  set (tmp := fresh_addr m) in *.
  set (sz' := match cells2 with [] => 0 | _ => sz2 end) in *.
  assert (Hold : ∀ b, is_Some (nodes m !! b) → b ≠ tmp ∧ b ∉ copies.*1).
  { intros b [n Hb]. split; [intros ->; congruence|].
    intros Hin. rewrite (Hnew b Hin) in Hb. done. }
  assert (Hthis_old : is_Some (nodes m !! this)).
  { destruct Hthis as (? & ? & ? & _). eauto. }
  assert (Hrhs_old : is_Some (nodes m !! rhs)).
  { destruct Hrhs as (? & ? & ? & _). eauto. }
  assert (Hcells1_old : ∀ b, b ∈ cells1.*1 → is_Some (nodes m !! b)).
  { intros b Hb. by destruct (is_list_cells_on_heap _ _ _ _ _ Hthis Hb) as (_ & _ & ?). }
  destruct (Hold this Hthis_old) as [Hthis_tmp Hthis_copies].
  destruct (Hold rhs Hrhs_old) as [Hrhs_tmp Hrhs_copies].
  assert (Hthis1 : is_list m1 this cells1 sz1).
  { eapply is_list_frame; [exact Hthis|by apply Hnodes1|by apply Hsizes1|].
    intros b Hb. destruct (Hold b (Hcells1_old b Hb)).
    split; [by apply Hnodes1|by apply Hsizes1]. }
  destruct (swap_is_list m1 this tmp cells1 copies sz1 sz' Hthis1 Htmp1)
    as (m2 & Hswap & Hthis2 & Htmp2 & Hnodes2 & Hsizes2 & _).
  destruct (destroy_is_list m2 tmp cells1 sz1 fuel Htmp2 Hfuel1)
    as (m3 & Hdestroy & Hgone & Hgones & Hfreed & Hnodes3 & Hsizes3).
  pose proof (is_list_sentinel_not_cell _ _ _ _ Hthis) as Hthis_cells1.
  assert (Hrhs_cells1 : rhs ∉ cells1.*1).
  { intros Hin. destruct (is_list_cells_on_heap _ _ _ _ _ Hthis Hin) as (_ & Hs & _).
    destruct Hrhs as (? & ? & _ & ? & _). congruence. }
  assert (Hnodes : ∀ b, b ≠ this → b ∉ cells1.*1 → b ∉ copies.*1 →
                        nodes m3 !! b = nodes m !! b).
  { intros b Hb Hb1 Hbc. destruct (decide (b = tmp)) as [->|Hbtmp]; [congruence|].
    rewrite Hnodes3, Hnodes2, Hnodes1; done. }
  assert (Hsizes : ∀ b, b ≠ this → sizes m3 !! b = sizes m !! b).
  { intros b Hb. destruct (decide (b = tmp)) as [->|Hbtmp]; [congruence|].
    rewrite Hsizes3, Hsizes2, Hsizes1; done. }
  exists m3, copies. split; [|split; [|split; [done|split; [|done]]]].
  - unfold assign. destruct (decide (this = rhs)) as [?|_]; [done|].
    rewrite (bind_Done _ _ _ _ _ Hcopy), (bind_Done _ _ _ _ _ Hswap). exact Hdestroy.
  - eapply is_list_frame; [exact Hthis2| | |].
    + by apply Hnodes3.
    + by apply Hsizes3.
    + intros b Hb.
      destruct (is_list_cells_on_heap _ _ _ _ _ Htmp1 Hb) as (Hbtmp & _ & _).
      assert (b ∉ cells1.*1).
      { intros Hin. destruct (Hold b (Hcells1_old b Hin)). done. }
      split; [by apply Hnodes3|by apply Hsizes3].
  - eapply is_list_frame; [exact Hrhs| | |].
    + by apply Hnodes.
    + by apply Hsizes.
    + intros b Hb.
      destruct (is_list_cells_on_heap _ _ _ _ _ Hrhs Hb) as (_ & Hbs & Hbn).
      destruct (Hold b Hbn).
      assert (b ≠ this).
      { intros ->. destruct Hthis as (? & ? & _ & ? & _). congruence. }
      assert (b ∉ cells1.*1) by (intros Hin; by apply (Hdisjoint b Hin)).
      split; [by apply Hnodes|by apply Hsizes].
Qed.

(** Calls at the front behave as on a stack of values, and [size_] goes up
    by one per [PushFront] whatever [PopFront] does. *)
Lemma run_front_ops_is_list this (ops : list (front_op Type_)) : ∀ m cells sz,
  is_list m this cells sz →
  ∃ m' cells',
    run_front_ops this ops m = Done tt m' ∧
    is_list m' this cells' (Nat.iter (pushes ops) (λ s, wrap (s + 1)) sz) ∧
    values_of cells' = stack_after ops (values_of cells).
Proof.
  induction ops as [|[x|] rest IH]; intros m cells sz Hlist.
  - exists m, cells. done.
  - destruct (PushFront_is_list m this cells sz x Hlist) as (m1 & Hpush & Hlist1 & _).
    destruct (IH m1 _ _ Hlist1) as (m' & cells' & Hrun & Hlist' & Hvals).
    exists m', cells'. split; [|split].
    + simpl. by rewrite (bind_Done _ _ _ _ _ Hpush).
    + change (pushes (Push x :: rest)) with (S (pushes rest)).
      rewrite Nat.iter_succ_r. exact Hlist'.
    + exact Hvals.
  - destruct (PopFront_is_list m this cells sz Hlist) as (m1 & Hpop & Hlist1 & _).
    destruct (IH m1 _ _ Hlist1) as (m' & cells' & Hrun & Hlist' & Hvals).
    exists m', cells'. split; [|split].
    + simpl. by rewrite (bind_Done _ _ _ _ _ Hpop).
    + exact Hlist'.
    + rewrite Hvals. simpl. f_equal. unfold values_of. by destruct cells.
Qed.

End Copying.

(** ** More properties of the container *)

Section MoreProperties.

Context {Type_ : Type} `{ElementType Type_}.

Implicit Types (m : Memory Type_) (this other lhs rhs : positive)
  (cells before after : list (positive * Type_)).

Lemma iter_increment_from (sz : Z) (n : nat) :
  0 ≤ sz < size_t_modulus →
  Nat.iter n (λ s, wrap (s + 1)) sz = wrap (sz + Z.of_nat n).
Proof.
  intros Hsz. induction n as [|n IH].
  - simpl. unfold wrap. rewrite Z.add_0_r. symmetry. by apply Z.mod_small.
  - rewrite Nat.iter_succ, IH. unfold wrap.
    rewrite Zplus_mod_idemp_l. f_equal. lia.
Qed.

Lemma equal_values_defined (xs : list Type_) : ∀ ys,
  (length xs ≤ length ys)%nat →
  ∃ b, equal_values xs ys = Some b ∧ (b = true ↔ values_agree xs ys).
Proof.
  induction xs as [|x xs IH]; intros ys Hlen.
  - exists true. split; [done|]. split; [|done]. intros _ i x y Hx. by destruct i.
  - destruct ys as [|y ys]; [simpl in Hlen; lia|]. simpl.
    destruct (value_eq x y) eqn:Hxy; simpl.
    + destruct (IH ys) as (b & Hb & Hiff); [simpl in Hlen; lia|].
      exists b. split; [done|]. rewrite Hiff. split.
      * intros Hall [|i] x' y' Hx Hy; simpl in *; [congruence|eauto].
      * intros Hall i x' y' Hx Hy. by apply (Hall (S i)).
    + exists false. split; [done|]. split; [done|].
      intros Hall. specialize (Hall O x y eq_refl eq_refl). congruence.
Qed.

Lemma equal_values_undefined (xs : list Type_) : ∀ ys,
  equal_values xs ys = None ↔
  ((length ys < length xs)%nat ∧ values_agree xs ys).
Proof.
  induction xs as [|x xs IH]; intros ys.
  - simpl. split; [done|]. intros [Hlen _]. lia.
  - destruct ys as [|y ys]; simpl.
    + split; [|done]. intros _. split; [lia|]. intros i x' y' _ Hy. by destruct i.
    + destruct (value_eq x y) eqn:Hxy; simpl.
      * rewrite IH. split.
        -- intros [Hlen Hall]. split; [lia|].
           intros [|i] x' y' Hx Hy; simpl in *; [congruence|eauto].
        -- intros [Hlen Hall]. split; [lia|].
           intros i x' y' Hx Hy. by apply (Hall (S i)).
      * split; [done|]. intros [_ Hall].
        specialize (Hall O x y eq_refl eq_refl). congruence.
Qed.

Lemma less_values_asymmetric (xs : list Type_) : ∀ ys,
  (∀ x y, value_lt x y = true → value_lt y x = false) →
  less_values xs ys = true → less_values ys xs = false.
Proof.
  intros ys Hasym. revert ys.
  induction xs as [|x xs IH]; intros [|y ys]; simpl; try done.
  destruct (value_lt x y) eqn:Hxy.
  - intros _. by rewrite (Hasym x y Hxy).
  - destruct (value_lt y x) eqn:Hyx; [done|]. apply IH.
Qed.

(** X1: any sequence of [PushFront] and [PopFront] calls on a well-formed
    list returns; afterwards the list reads as a stack would after the same
    pushes and pops, and [GetSize] has gone up by the number of [PushFront]
    calls alone (modulo 2^64). *)
Theorem front_calls_behave_as_stack m this cells sz (ops : list (front_op Type_)) :
  is_list m this cells sz → 0 ≤ sz < size_t_modulus →
  ∃ m', run_front_ops this ops m = Done tt m' ∧
        iterate (length (stack_after ops (values_of cells))) this m'
        = Done (stack_after ops (values_of cells)) m' ∧
        GetSize this m' = Done (wrap (sz + Z.of_nat (pushes ops))) m'.
Proof.
  intros Hlist Hsz.
  destruct (run_front_ops_is_list this ops m cells sz Hlist)
    as (m' & cells' & Hrun & Hlist' & Hvals).
  rewrite (iter_increment_from sz _ Hsz) in Hlist'.
  exists m'. split; [done|]. split.
  - rewrite <- Hvals. apply (iterate_is_list _ _ _ _ _ Hlist').
    by rewrite values_of_length.
  - destruct Hlist' as (? & ? & _ & Hs & _). by apply get_size_Some.
Qed.

(** X2: [InsertAfter(pos, x)] on a well-formed list, with [pos] at the
    sentinel ([before] empty) or at the last node of [before]: a node is
    made at an address that was not in use and linked in right after [pos];
    the iterator handed back references it and dereferences to [x]; the
    list reads the old values with [x] inserted at that place; [size_] is
    incremented. *)
Theorem InsertAfter_inserts_after_position m this before after sz x :
  is_list m this (before ++ after) sz →
  ∃ a m',
    InsertAfter this (Iterator (Some (default this (last before.*1)))) x m
    = Done (Iterator (Some a)) m' ∧
    nodes m !! a = None ∧
    is_list m' this (before ++ (a, x) :: after) (wrap (sz + 1)) ∧
    dereference (Iterator (Some a)) m' = Done x m' ∧
    iterate (S (length (before ++ after))) this m'
    = Done (values_of before ++ x :: values_of after) m' ∧
    GetSize this m' = Done (wrap (sz + 1)) m'.
Proof.
  intros Hlist.
  destruct (InsertAfter_is_list m this before after sz x Hlist)
    as (m' & Hins & Hlist' & _).
  exists (fresh_addr m), m'. split; [done|]. split; [apply fresh_addr_nodes|].
  split; [done|]. split; [|split].
  - destruct Hlist' as (hv & hnx & _ & _ & Hchain).
    apply segment_app in Hchain as (r & _ & Htail).
    pose proof Htail as (-> & _). by apply (dereference_cell _ _ _ after).
  - rewrite (iterate_is_list _ _ _ _ (S (length (before ++ after))) Hlist').
    + by rewrite values_of_app.
    + rewrite !length_app. simpl. lia.
  - destruct Hlist' as (? & ? & _ & Hs & _). by apply get_size_Some.
Qed.

(** X3: [EraseAfter(pos)] on a well-formed list, with [pos] at the sentinel
    ([before] empty) or at the last node of [before], and a node [c] after
    it: [c] leaves the chain and is deleted; the iterator handed back
    references the node that followed [c], and equals [end()] when there was
    none; the other nodes keep their order; [size_] is not changed. *)
Theorem EraseAfter_removes_after_position m this before c after sz :
  is_list m this (before ++ c :: after) sz →
  ∃ it m',
    EraseAfter this (Iterator (Some (default this (last before.*1)))) m
    = Done it m' ∧
    node_ it = fst <$> head after ∧
    (after = [] → iterator_eq it (Iterator None) = true) ∧
    nodes m' !! c.1 = None ∧
    is_list m' this (before ++ after) sz ∧
    iterate (length (before ++ after)) this m'
    = Done (values_of before ++ values_of after) m' ∧
    GetSize this m' = Done sz m'.
Proof.
  intros Hlist.
  destruct (EraseAfter_is_list m this before c after sz Hlist)
    as (m' & Herase & Hlist' & Hgone).
  exists (Iterator (fst <$> head after)), m'.
  split; [done|]. split; [done|]. split; [by intros ->|]. split; [done|].
  split; [done|]. split.
  - rewrite (iterate_is_list _ _ _ _ (length (before ++ after)) Hlist'); [|done].
    by rewrite values_of_app.
  - destruct Hlist' as (? & ? & _ & Hs & _). by apply get_size_Some.
Qed.

(** X4: inserting after a position and then erasing after the same position
    gives back the chain the list had, node for node; the node made in
    between is deleted again, the second call hands back the iterator to the
    node that followed the position at the start, and [size_] ends one
    higher than it was. *)
Theorem InsertAfter_then_EraseAfter m this before after sz x :
  is_list m this (before ++ after) sz →
  ∃ a m1 it m2,
    InsertAfter this (Iterator (Some (default this (last before.*1)))) x m
    = Done (Iterator (Some a)) m1 ∧
    EraseAfter this (Iterator (Some (default this (last before.*1)))) m1
    = Done it m2 ∧
    node_ it = fst <$> head after ∧
    nodes m2 !! a = None ∧
    is_list m2 this (before ++ after) (wrap (sz + 1)).
Proof.
  intros Hlist.
  destruct (InsertAfter_is_list m this before after sz x Hlist)
    as (m1 & Hins & Hlist1 & _).
  destruct (EraseAfter_is_list m1 this before (fresh_addr m, x) after _ Hlist1)
    as (m2 & Herase & Hlist2 & Hgone).
  exists (fresh_addr m), m1, (Iterator (fst <$> head after)), m2. done.
Qed.

(** X5: [EraseAfter] at the last position of a well-formed list (the last
    node, or the sentinel of a list without nodes) is undefined behaviour:
    there is no node after the position and the code reads through its null
    [next_node]. *)
Theorem EraseAfter_without_successor_undefined m this cells sz :
  is_list m this cells sz →
  EraseAfter this (Iterator (Some (default this (last cells.*1)))) m = Undefined.
Proof. apply EraseAfter_last_position. Qed.


(** X7: [swap] on two well-formed lists returns and exchanges their chains
    and their sizes; it makes and deletes no node (the set of addresses in
    use is the same) and changes nothing but the two list objects. *)
Theorem swap_exchanges_lists m this other cells1 cells2 sz1 sz2 :
  is_list m this cells1 sz1 → is_list m other cells2 sz2 →
  ∃ m', swap this other m = Done tt m' ∧
        is_list m' this cells2 sz2 ∧
        is_list m' other cells1 sz1 ∧
        dom (nodes m') = dom (nodes m) ∧
        (∀ b, b ≠ this → b ≠ other →
              nodes m' !! b = nodes m !! b ∧ sizes m' !! b = sizes m !! b).
Proof.
  intros H1 H2.
  destruct (swap_is_list m this other cells1 cells2 sz1 sz2 H1 H2)
    as (m' & Hswap & H1' & H2' & Hnodes & Hsizes & Hdom).
  exists m'. split; [done|]. split; [done|]. split; [done|]. split; [done|].
  intros b ? ?. split; [by apply Hnodes|by apply Hsizes].
Qed.

(** X8: the copy constructor returns a new list whose nodes were all made
    for it (none of their addresses was in use) and carry the values of the
    source in the same order; the source list is left as it was.  [size_] is
    taken over from the source when the source has a first node, and is 0
    otherwise. *)
Theorem copy_constructor_makes_deep_copy m other cells sz fuel :
  is_list m other cells sz → (length cells ≤ fuel)%nat →
  ∃ this m' copies,
    SingleLinkedList_copy fuel other m = Done this m' ∧
    nodes m !! this = None ∧
    is_list m' this copies (match cells with [] => 0 | _ => sz end) ∧
    values_of copies = values_of cells ∧
    (∀ b, b ∈ copies.*1 → nodes m !! b = None) ∧
    is_list m' other cells sz ∧
    iterate (length cells) this m' = Done (values_of cells) m' ∧
    iterate (length cells) other m' = Done (values_of cells) m'.
Proof.
  intros Hother Hfuel.
  destruct (SingleLinkedList_copy_is_list m other cells sz fuel Hother Hfuel)
    as (m' & copies & Hcopy & Hthis' & Hvals & Hother' & Hnew & _).
  exists (fresh_addr m), m', copies. split; [done|]. split; [apply fresh_addr_nodes|].
  split; [done|]. split; [done|]. split; [done|]. split; [done|]. split.
  - rewrite <- Hvals. apply (iterate_is_list _ _ _ _ _ Hthis').
    by rewrite <- (values_of_length copies), Hvals, values_of_length.
  - by apply (iterate_is_list _ _ _ _ _ Hother').
Qed.

(** X9: assignment [this = rhs] between two different well-formed lists
    that share no node returns; [this] then holds newly made nodes carrying
    the values of [rhs] in order, every node [this] had before is deleted,
    and [rhs] is left as it was. *)
Theorem assignment_replaces_contents m this rhs cells1 cells2 sz1 sz2 fuel :
  is_list m this cells1 sz1 → is_list m rhs cells2 sz2 → this ≠ rhs →
  (∀ b, b ∈ cells1.*1 → b ∉ cells2.*1) →
  (length cells1 ≤ fuel)%nat → (length cells2 ≤ fuel)%nat →
  ∃ m' copies,
    assign fuel this rhs m = Done tt m' ∧
    is_list m' this copies (match cells2 with [] => 0 | _ => sz2 end) ∧
    values_of copies = values_of cells2 ∧
    (∀ b, b ∈ copies.*1 → nodes m !! b = None) ∧
    (∀ b, b ∈ cells1.*1 → nodes m' !! b = None) ∧
    is_list m' rhs cells2 sz2 ∧
    iterate (length cells2) this m' = Done (values_of cells2) m'.
Proof.
  intros Hthis Hrhs Hne Hdisjoint Hfuel1 Hfuel2.
  destruct (assign_is_list m this rhs cells1 cells2 sz1 sz2 fuel
              Hthis Hrhs Hne Hdisjoint Hfuel1 Hfuel2)
    as (m' & copies & Hassign & Hthis' & Hvals & Hrhs' & Hfreed & Hnew & _).
  exists m', copies. split; [done|]. split; [done|]. split; [done|].
  split; [done|]. split; [done|]. split; [done|].
  rewrite <- Hvals. apply (iterate_is_list _ _ _ _ _ Hthis').
  by rewrite <- (values_of_length copies), Hvals, values_of_length.
Qed.

(** X10: when the left list is not longer than the right one, [operator==]
    returns without changing the memory, and answers [true] exactly when
    every value of the left list equals the value at the same position of
    the right list; right-hand values past the length of the left list are
    never looked at.  [operator!=] answers the opposite. *)
Theorem operator_eq_compares_left_positions m lhs rhs cells1 cells2 sz1 sz2 fuel :
  is_list m lhs cells1 sz1 → is_list m rhs cells2 sz2 →
  (length cells1 ≤ length cells2)%nat → (length cells1 ≤ fuel)%nat →
  ∃ b, operator_eq fuel lhs rhs m = Done b m ∧
       operator_ne fuel lhs rhs m = Done (negb b) m ∧
       (b = true ↔ values_agree (values_of cells1) (values_of cells2)).
Proof.
  intros Hl Hr Hlen Hfuel.
  destruct (equal_values_defined (values_of cells1) (values_of cells2))
    as (b & Hb & Hiff); [by rewrite !values_of_length|].
  pose proof (operator_eq_is_list m lhs rhs cells1 cells2 sz1 sz2 fuel Hl Hr Hfuel) as Heq.
  rewrite Hb in Heq. exists b. split; [done|]. split; [|done].
  unfold operator_ne. by rewrite (bind_Done _ _ _ _ _ Heq).
Qed.

(** X11: on well-formed lists [operator==] is undefined behaviour exactly
    when the left list is longer than the right one and the two agree on
    all the positions of the right one: the comparison then dereferences the
    end iterator of the right list. *)
Theorem operator_eq_undefined_iff m lhs rhs cells1 cells2 sz1 sz2 fuel :
  is_list m lhs cells1 sz1 → is_list m rhs cells2 sz2 →
  (length cells1 ≤ fuel)%nat →
  operator_eq fuel lhs rhs m = Undefined ↔
  ((length cells2 < length cells1)%nat ∧
   values_agree (values_of cells1) (values_of cells2)).
Proof.
  intros Hl Hr Hfuel.
  rewrite (operator_eq_is_list m lhs rhs cells1 cells2 sz1 sz2 fuel Hl Hr Hfuel).
  rewrite <- (values_of_length cells1), <- (values_of_length cells2).
  rewrite <- equal_values_undefined.
  by destruct (equal_values (values_of cells1) (values_of cells2)).
Qed.

(** X12: walking a well-formed list with iterators: [n] increments from
    [begin()] always return and never change the memory; the iterator then
    references the node at position [n] and dereferences to its value, and
    for [n] at or past the length it equals [end()], where dereferencing is
    undefined behaviour. *)
Theorem iterator_walk m this cells sz (n : nat) :
  is_list m this cells sz →
  ∃ it, (do first <- begin this; advance n first) m = Done it m ∧
        node_ it = fst <$> cells !! n ∧
        dereference it m = match cells !! n with
                           | Some c => Done c.2 m
                           | None => Undefined
                           end ∧
        iterator_eq it (Iterator None) = bool_decide (length cells ≤ n)%nat.
Proof.
  intros Hlist.
  destruct (begin_is_list _ _ _ _ Hlist) as (p & Hbegin & Hchain).
  assert (Hhead : head (drop n cells) = cells !! n).
  { rewrite head_lookup, lookup_drop. f_equal. lia. }
  exists (Iterator (fst <$> cells !! n)). split; [|split; [done|split]].
  - rewrite (bind_Done _ _ _ _ _ Hbegin). rewrite <- Hhead. by apply advance_chain.
  - destruct (cells !! n) as [[a v]|] eqn:Hn; simpl; [|done].
    apply list_elem_of_split_length in Hn as (c1 & c2 & -> & _).
    unfold chain in Hchain. apply segment_app in Hchain as (r & _ & Htail).
    pose proof Htail as (-> & _). by apply (dereference_cell _ _ _ c2).
  - unfold iterator_eq. simpl.
    destruct (cells !! n) as [[a v]|] eqn:Hn; simpl.
    + apply lookup_lt_Some in Hn.
      rewrite (bool_decide_eq_false_2 (length cells ≤ n)%nat) by lia. done.
    + apply lookup_ge_None in Hn.
      rewrite (bool_decide_eq_true_2 (length cells ≤ n)%nat) by lia. done.
Qed.

(** X13: when [operator<] of the elements is asymmetric, [operator<] of
    well-formed lists is too: [a < b] and [b < a] never both answer [true];
    in particular no list is less than itself. *)
Theorem operator_lt_asymmetric m lhs rhs cells1 cells2 sz1 sz2 fuel :
  (∀ x y : Type_, value_lt x y = true → value_lt y x = false) →
  is_list m lhs cells1 sz1 → is_list m rhs cells2 sz2 →
  (length cells1 `min` length cells2 ≤ fuel)%nat →
  ∃ b1 b2, operator_lt fuel lhs rhs m = Done b1 m ∧
           operator_lt fuel rhs lhs m = Done b2 m ∧
           (b1 && b2 = false) ∧
           (lhs = rhs → b1 = false).
Proof.
  intros Hasym Hl Hr Hfuel.
  exists (less_values (values_of cells1) (values_of cells2)),
         (less_values (values_of cells2) (values_of cells1)).
  split; [by eapply operator_lt_is_list|].
  split; [eapply operator_lt_is_list; [done..|lia]|].
  assert (Hboth : less_values (values_of cells1) (values_of cells2)
                  && less_values (values_of cells2) (values_of cells1) = false).
  { destruct (less_values (values_of cells1) (values_of cells2)) eqn:H12; [|done].
    simpl. by apply less_values_asymmetric. }
  split; [done|].
  intros ->. destruct Hl as (? & ? & Hn1 & _ & Hc1), Hr as (? & ? & Hn2 & _ & Hc2).
  simplify_eq. pose proof (chain_unique _ _ _ _ Hc1 Hc2) as ->.
  by destruct (less_values (values_of cells2) (values_of cells2)).
Qed.

(** X14: one [PopFront] on a well-formed list returns; on a list without
    nodes it changes nothing at all; otherwise the first node is unlinked and
    deleted and the rest of the chain stays as it was.  [size_] is never
    changed. *)
Theorem PopFront_drops_first_node m this cells sz :
  is_list m this cells sz →
  ∃ m', PopFront this m = Done tt m' ∧
        (cells = [] → m' = m) ∧
        (∀ c, head cells = Some c → nodes m' !! c.1 = None) ∧
        is_list m' this (tail cells) sz ∧
        sizes m' = sizes m.
Proof.
  intros Hlist.
  destruct (PopFront_is_list m this cells sz Hlist) as (m' & Hpop & Hlist' & Hsizes & Hgone).
  exists m'. split; [done|]. split; [|done].
  intros ->. destruct Hlist as (hv & nx & Hn & _ & Hchain).
  unfold chain in Hchain. simpl in Hchain. subst nx.
  unfold PopFront in Hpop.
  rewrite (bind_Done _ _ _ _ _ (get_next_Some _ _ _ Hn)) in Hpop. simpl in Hpop.
  by injection Hpop.
Qed.

End MoreProperties.

(** ** The further properties at the lists of [two_lists_memory] *)

Lemma front_calls_behave_as_stack_witness :
  is_list two_lists_memory 1 cells_1_2 2 ∧
  0 ≤ 2 < size_t_modulus ∧
  ∃ m', run_front_ops 1 [Push 5; Pop; Pop; Push 9] two_lists_memory = Done tt m' ∧
        iterate (length (stack_after [Push 5; Pop; Pop; Push 9] (values_of cells_1_2))) 1 m'
        = Done (stack_after [Push 5; Pop; Pop; Push 9] (values_of cells_1_2)) m' ∧
        GetSize 1 m'
        = Done (wrap (2 + Z.of_nat (pushes [Push 5; Pop; Pop; Push 9]))) m'.
Proof.
  assert (H1 : is_list two_lists_memory 1 cells_1_2 2)
    by check_is_list 0 (Some 3%positive).
  assert (H2 : 0 ≤ 2 < size_t_modulus) by (split; [lia|reflexivity]).
  split; [exact H1|]. split; [exact H2|].
  exact (front_calls_behave_as_stack two_lists_memory 1 cells_1_2 2
           [Push 5; Pop; Pop; Push 9] H1 H2).
Defined.

Lemma InsertAfter_inserts_after_position_witness :
  is_list two_lists_memory 1 ([(3%positive, 1)] ++ [(2%positive, 2)]) 2 ∧
  ∃ a m',
    InsertAfter 1 (Iterator (Some (default 1%positive (last [(3%positive, 1)].*1)))) 9
      two_lists_memory
    = Done (Iterator (Some a)) m' ∧
    nodes two_lists_memory !! a = None ∧
    is_list m' 1 ([(3%positive, 1)] ++ (a, 9) :: [(2%positive, 2)]) (wrap (2 + 1)) ∧
    dereference (Iterator (Some a)) m' = Done 9 m' ∧
    iterate (S (length ([(3%positive, 1)] ++ [(2%positive, 2)]))) 1 m'
    = Done (values_of [(3%positive, 1)] ++ 9 :: values_of [(2%positive, 2)]) m' ∧
    GetSize 1 m' = Done (wrap (2 + 1)) m'.
Proof.
  assert (H1 : is_list two_lists_memory 1 ([(3%positive, 1)] ++ [(2%positive, 2)]) 2)
    by check_is_list 0 (Some 3%positive).
  split; [exact H1|].
  exact (InsertAfter_inserts_after_position two_lists_memory 1
           [(3%positive, 1)] [(2%positive, 2)] 2 9 H1).
Defined.

Lemma EraseAfter_removes_after_position_witness :
  is_list two_lists_memory 4
    ([(7%positive, 1)] ++ (6%positive, 2) :: [(5%positive, 3)]) 3 ∧
  ∃ it m',
    EraseAfter 4 (Iterator (Some (default 4%positive (last [(7%positive, 1)].*1))))
      two_lists_memory
    = Done it m' ∧
    node_ it = fst <$> head [(5%positive, 3)] ∧
    ([(5%positive, 3)] = [] → iterator_eq it (Iterator None) = true) ∧
    nodes m' !! (6%positive, 2).1 = None ∧
    is_list m' 4 ([(7%positive, 1)] ++ [(5%positive, 3)]) 3 ∧
    iterate (length ([(7%positive, 1)] ++ [(5%positive, 3)])) 4 m'
    = Done (values_of [(7%positive, 1)] ++ values_of [(5%positive, 3)]) m' ∧
    GetSize 4 m' = Done 3 m'.
Proof.
  assert (H1 : is_list two_lists_memory 4
                 ([(7%positive, 1)] ++ (6%positive, 2) :: [(5%positive, 3)]) 3)
    by check_is_list 0 (Some 7%positive).
  split; [exact H1|].
  exact (EraseAfter_removes_after_position two_lists_memory 4
           [(7%positive, 1)] (6%positive, 2) [(5%positive, 3)] 3 H1).
Defined.

Lemma InsertAfter_then_EraseAfter_witness :
  is_list two_lists_memory 1 ([] ++ cells_1_2) 2 ∧
  ∃ a m1 it m2,
    InsertAfter 1 (Iterator (Some (default 1%positive (last ([] : list (positive * Z)).*1))))
      9 two_lists_memory
    = Done (Iterator (Some a)) m1 ∧
    EraseAfter 1 (Iterator (Some (default 1%positive (last ([] : list (positive * Z)).*1))))
      m1
    = Done it m2 ∧
    node_ it = fst <$> head cells_1_2 ∧
    nodes m2 !! a = None ∧
    is_list m2 1 ([] ++ cells_1_2) (wrap (2 + 1)).
Proof.
  assert (H1 : is_list two_lists_memory 1 ([] ++ cells_1_2) 2)
    by check_is_list 0 (Some 3%positive).
  split; [exact H1|].
  exact (InsertAfter_then_EraseAfter two_lists_memory 1 [] cells_1_2 2 9 H1).
Defined.

Lemma EraseAfter_without_successor_undefined_witness :
  is_list two_lists_memory 1 cells_1_2 2 ∧
  EraseAfter 1 (Iterator (Some (default 1%positive (last cells_1_2.*1))))
    two_lists_memory
  = Undefined.
Proof.
  assert (H1 : is_list two_lists_memory 1 cells_1_2 2)
    by check_is_list 0 (Some 3%positive).
  split; [exact H1|].
  exact (EraseAfter_without_successor_undefined two_lists_memory 1 cells_1_2 2 H1).
Defined.


Lemma swap_exchanges_lists_witness :
  is_list two_lists_memory 1 cells_1_2 2 ∧
  is_list two_lists_memory 4 cells_1_2_3 3 ∧
  ∃ m', swap 1 4 two_lists_memory = Done tt m' ∧
        is_list m' 1 cells_1_2_3 3 ∧
        is_list m' 4 cells_1_2 2 ∧
        dom (nodes m') = dom (nodes two_lists_memory) ∧
        (∀ b, b ≠ 1%positive → b ≠ 4%positive →
              nodes m' !! b = nodes two_lists_memory !! b ∧
              sizes m' !! b = sizes two_lists_memory !! b).
Proof.
  assert (H1 : is_list two_lists_memory 1 cells_1_2 2)
    by check_is_list 0 (Some 3%positive).
  assert (H2 : is_list two_lists_memory 4 cells_1_2_3 3)
    by check_is_list 0 (Some 7%positive).
  split; [exact H1|]. split; [exact H2|].
  exact (swap_exchanges_lists two_lists_memory 1 4 cells_1_2 cells_1_2_3 2 3 H1 H2).
Defined.

Lemma copy_constructor_makes_deep_copy_witness :
  is_list two_lists_memory 1 cells_1_2 2 ∧
  (length cells_1_2 ≤ 2)%nat ∧
  ∃ this m' copies,
    SingleLinkedList_copy 2 1 two_lists_memory = Done this m' ∧
    nodes two_lists_memory !! this = None ∧
    is_list m' this copies (match cells_1_2 with [] => 0 | _ => 2 end) ∧
    values_of copies = values_of cells_1_2 ∧
    (∀ b, b ∈ copies.*1 → nodes two_lists_memory !! b = None) ∧
    is_list m' 1 cells_1_2 2 ∧
    iterate (length cells_1_2) this m' = Done (values_of cells_1_2) m' ∧
    iterate (length cells_1_2) 1 m' = Done (values_of cells_1_2) m'.
Proof.
  assert (H1 : is_list two_lists_memory 1 cells_1_2 2)
    by check_is_list 0 (Some 3%positive).
  assert (H2 : (length cells_1_2 ≤ 2)%nat) by (simpl; lia).
  split; [exact H1|]. split; [exact H2|].
  exact (copy_constructor_makes_deep_copy two_lists_memory 1 cells_1_2 2 2%nat H1 H2).
Defined.

Lemma assignment_replaces_contents_witness :
  is_list two_lists_memory 1 cells_1_2 2 ∧
  is_list two_lists_memory 4 cells_1_2_3 3 ∧
  1%positive ≠ 4%positive ∧
  (∀ b, b ∈ cells_1_2.*1 → b ∉ cells_1_2_3.*1) ∧
  (length cells_1_2 ≤ 3)%nat ∧ (length cells_1_2_3 ≤ 3)%nat ∧
  ∃ m' copies,
    assign 3 1 4 two_lists_memory = Done tt m' ∧
    is_list m' 1 copies (match cells_1_2_3 with [] => 0 | _ => 3 end) ∧
    values_of copies = values_of cells_1_2_3 ∧
    (∀ b, b ∈ copies.*1 → nodes two_lists_memory !! b = None) ∧
    (∀ b, b ∈ cells_1_2.*1 → nodes m' !! b = None) ∧
    is_list m' 4 cells_1_2_3 3 ∧
    iterate (length cells_1_2_3) 1 m' = Done (values_of cells_1_2_3) m'.
Proof.
  assert (H1 : is_list two_lists_memory 1 cells_1_2 2)
    by check_is_list 0 (Some 3%positive).
  assert (H2 : is_list two_lists_memory 4 cells_1_2_3 3)
    by check_is_list 0 (Some 7%positive).
  assert (H3 : 1%positive ≠ 4%positive) by done.
  assert (Hd : ∀ b, b ∈ cells_1_2.*1 → b ∉ cells_1_2_3.*1)
    by (apply Forall_forall; apply (bool_decide_unpack _); vm_compute; exact I).
  assert (H4 : (length cells_1_2 ≤ 3)%nat) by (simpl; lia).
  assert (H5 : (length cells_1_2_3 ≤ 3)%nat) by (simpl; lia).
  split; [exact H1|]. split; [exact H2|]. split; [exact H3|].
  split; [exact Hd|]. split; [exact H4|]. split; [exact H5|].
  exact (assignment_replaces_contents two_lists_memory 1 4 cells_1_2 cells_1_2_3 2 3 3%nat
           H1 H2 H3 Hd H4 H5).
Defined.

Lemma operator_eq_compares_left_positions_witness :
  is_list two_lists_memory 1 cells_1_2 2 ∧
  is_list two_lists_memory 4 cells_1_2_3 3 ∧
  (length cells_1_2 ≤ length cells_1_2_3)%nat ∧
  (length cells_1_2 ≤ 2)%nat ∧
  ∃ b, operator_eq 2 1 4 two_lists_memory = Done b two_lists_memory ∧
       operator_ne 2 1 4 two_lists_memory = Done (negb b) two_lists_memory ∧
       (b = true ↔ values_agree (values_of cells_1_2) (values_of cells_1_2_3)).
Proof.
  assert (H1 : is_list two_lists_memory 1 cells_1_2 2)
    by check_is_list 0 (Some 3%positive).
  assert (H2 : is_list two_lists_memory 4 cells_1_2_3 3)
    by check_is_list 0 (Some 7%positive).
  assert (H3 : (length cells_1_2 ≤ length cells_1_2_3)%nat) by (simpl; lia).
  assert (H4 : (length cells_1_2 ≤ 2)%nat) by (simpl; lia).
  split; [exact H1|]. split; [exact H2|]. split; [exact H3|]. split; [exact H4|].
  exact (operator_eq_compares_left_positions two_lists_memory 1 4 cells_1_2 cells_1_2_3
           2 3 2%nat H1 H2 H3 H4).
Defined.

Lemma operator_eq_undefined_iff_witness :
  is_list two_lists_memory 4 cells_1_2_3 3 ∧
  is_list two_lists_memory 1 cells_1_2 2 ∧
  (length cells_1_2_3 ≤ 3)%nat ∧
  (operator_eq 3 4 1 two_lists_memory = Undefined ↔
   ((length cells_1_2 < length cells_1_2_3)%nat ∧
    values_agree (values_of cells_1_2_3) (values_of cells_1_2))).
Proof.
  assert (H1 : is_list two_lists_memory 4 cells_1_2_3 3)
    by check_is_list 0 (Some 7%positive).
  assert (H2 : is_list two_lists_memory 1 cells_1_2 2)
    by check_is_list 0 (Some 3%positive).
  assert (H3 : (length cells_1_2_3 ≤ 3)%nat) by (simpl; lia).
  split; [exact H1|]. split; [exact H2|]. split; [exact H3|].
  exact (operator_eq_undefined_iff two_lists_memory 4 1 cells_1_2_3 cells_1_2
           3 2 3%nat H1 H2 H3).
Defined.

Lemma iterator_walk_witness :
  is_list two_lists_memory 4 cells_1_2_3 3 ∧
  ∃ it, (do first <- begin 4; advance 1 first) two_lists_memory
        = Done it two_lists_memory ∧
        node_ it = fst <$> cells_1_2_3 !! 1%nat ∧
        dereference it two_lists_memory
        = match cells_1_2_3 !! 1%nat with
          | Some c => Done c.2 two_lists_memory
          | None => Undefined
          end ∧
        iterator_eq it (Iterator None) = bool_decide (length cells_1_2_3 ≤ 1)%nat.
Proof.
  assert (H1 : is_list two_lists_memory 4 cells_1_2_3 3)
    by check_is_list 0 (Some 7%positive).
  split; [exact H1|].
  exact (iterator_walk two_lists_memory 4 cells_1_2_3 3 1%nat H1).
Defined.

Lemma operator_lt_asymmetric_witness :
  (∀ x y : Z, value_lt x y = true → value_lt y x = false) ∧
  is_list two_lists_memory 1 cells_1_2 2 ∧
  is_list two_lists_memory 4 cells_1_2_3 3 ∧
  (length cells_1_2 `min` length cells_1_2_3 ≤ 2)%nat ∧
  ∃ b1 b2, operator_lt 2 1 4 two_lists_memory = Done b1 two_lists_memory ∧
           operator_lt 2 4 1 two_lists_memory = Done b2 two_lists_memory ∧
           (b1 && b2 = false) ∧
           (1%positive = 4%positive → b1 = false).
Proof.
  assert (H0 : ∀ x y : Z, value_lt x y = true → value_lt y x = false).
  { intros x y Hxy. simpl in *. apply Z.ltb_lt in Hxy. apply Z.ltb_ge. lia. }
  assert (H1 : is_list two_lists_memory 1 cells_1_2 2)
    by check_is_list 0 (Some 3%positive).
  assert (H2 : is_list two_lists_memory 4 cells_1_2_3 3)
    by check_is_list 0 (Some 7%positive).
  assert (H3 : (length cells_1_2 `min` length cells_1_2_3 ≤ 2)%nat) by (simpl; lia).
  split; [exact H0|]. split; [exact H1|]. split; [exact H2|]. split; [exact H3|].
  exact (operator_lt_asymmetric two_lists_memory 1 4 cells_1_2 cells_1_2_3 2 3 2%nat
           H0 H1 H2 H3).
Defined.

Lemma PopFront_drops_first_node_witness :
  is_list two_lists_memory 1 cells_1_2 2 ∧
  ∃ m', PopFront 1 two_lists_memory = Done tt m' ∧
        (cells_1_2 = [] → m' = two_lists_memory) ∧
        (∀ c, head cells_1_2 = Some c → nodes m' !! c.1 = None) ∧
        is_list m' 1 (tail cells_1_2) 2 ∧
        sizes m' = sizes two_lists_memory.
Proof.
  assert (H1 : is_list two_lists_memory 1 cells_1_2 2)
    by check_is_list 0 (Some 3%positive).
  split; [exact H1|].
  exact (PopFront_drops_first_node two_lists_memory 1 cells_1_2 2 H1).
Defined.
